(** * StepperWinch: step generator and path generator of one winch axis

    A shallow embedding of [Stepper.h]/[Stepper.cpp] and of
    [Path.h]/[Path.cpp], for the AVR target of the CNC shield
    ([cnc_shield.h]): [int] is 16 bits wide, [long] and [unsigned long]
    are 32 bits wide, [float] and [double] are both IEEE binary32.

    Integers are modelled in [Z] with the wrap-around of their C type
    written out; floats are modelled with the executable IEEE
    specification [SpecFloat] at precision 24 and maximal exponent 128;
    the pin writes of the step generator are recorded as a trace. *)

From Stdlib Require Import ZArith List Bool Lia.
From Stdlib Require Import Floats.SpecFloat.
Import ListNotations.

Local Open Scope Z_scope.

(** ** Machine integers of the target *)

Module CInt.

Definition ULONG_MOD : Z := 2 ^ 32.
Definition LONG_MIN : Z := - 2 ^ 31.
Definition LONG_MAX : Z := 2 ^ 31 - 1.

(** Conversion of a mathematical result to [unsigned long]. *)
Definition wrap_ulong (n : Z) : Z := n mod ULONG_MOD.

(** Conversion of a mathematical result to [long] (two's complement). *)
Definition wrap_long (n : Z) : Z := (n + 2 ^ 31) mod ULONG_MOD - 2 ^ 31.

Definition is_ulong (n : Z) : Prop := 0 <= n < ULONG_MOD.
Definition is_long (n : Z) : Prop := LONG_MIN <= n <= LONG_MAX.
Definition is_uint8 (n : Z) : Prop := 0 <= n < 256.

End CInt.

(** ** The hardware interface: [digitalWrite] events *)

Inductive level : Type := LOW | HIGH.

Inductive pin_write : Type :=
| DigitalWrite (pin : Z) (value : level).

(** ** Stepper.h / Stepper.cpp *)

Module Stepper.
Import CInt.

(** The instance variables of [class Stepper]. *)
Record state : Type := mk
  { step_pin : Z;        (* uint8_t *)
    dir_pin : Z;         (* uint8_t *)
    target : Z;          (* long *)
    step_interval : Z;   (* unsigned long *)
    position : Z;        (* long *)
    elapsed : Z          (* unsigned long *) }.

(** Every field holds a value of its C type. *)
Definition wf (s : state) : Prop :=
  is_uint8 (step_pin s) /\ is_uint8 (dir_pin s) /\
  is_long (target s) /\ is_ulong (step_interval s) /\
  is_long (position s) /\ is_ulong (elapsed s).

(** A member function runs on the object, may write pins and returns a
    value: a state monad on [state] that also logs the pin writes in
    the order they happen. *)
Definition M (A : Type) : Type := state -> A * state * list pin_write.

Definition ret {A} (a : A) : M A := fun s => (a, s, []).

Definition bind {A B} (m : M A) (f : A -> M B) : M B :=
  fun s =>
    let '(a, s1, w1) := m s in
    let '(b, s2, w2) := f a s1 in
    (b, s2, w1 ++ w2).

Definition get {A} (field : state -> A) : M A := fun s => (field s, s, []).

Definition set_target (v : Z) : M unit :=
  fun s => (tt, mk (step_pin s) (dir_pin s) v (step_interval s)
                   (position s) (elapsed s), []).

Definition set_step_interval (v : Z) : M unit :=
  fun s => (tt, mk (step_pin s) (dir_pin s) (target s) v
                   (position s) (elapsed s), []).

Definition set_position (v : Z) : M unit :=
  fun s => (tt, mk (step_pin s) (dir_pin s) (target s) (step_interval s)
                   v (elapsed s), []).

Definition set_elapsed (v : Z) : M unit :=
  fun s => (tt, mk (step_pin s) (dir_pin s) (target s) (step_interval s)
                   (position s) v, []).

Definition digitalWrite (pin : Z) (value : level) : M unit :=
  fun s => (tt, s, [DigitalWrite pin value]).

(** [if (c) { body }] without an else branch. *)
Definition when (c : bool) (body : M unit) : M unit :=
  if c then body else ret tt.

Declare Scope stepper_scope.
Delimit Scope stepper_scope with stepper.
Notation "x <- m ;; k" := (bind m (fun x => k))
  (at level 61, m at next level, right associativity) : stepper_scope.
Notation "m ;; k" := (bind m (fun _ => k))
  (at level 61, right associativity) : stepper_scope.

Local Open Scope stepper_scope.

(** [Stepper::Stepper(uint8_t _step_pin, uint8_t _dir_pin)] *)
Definition Stepper (_step_pin _dir_pin : Z) : state :=
  {| step_pin := _step_pin;
     dir_pin := _dir_pin;
     position := 0;
     target := 0;
     elapsed := 0;
     step_interval := 200 |}.

(** [void Stepper::pollForInterval(unsigned long interval)] *)
Definition pollForInterval (interval : Z) : M unit :=
  e <- get elapsed ;;
  set_elapsed (wrap_ulong (e + interval)) ;;
  e <- get elapsed ;;
  si <- get step_interval ;;
  when (si <=? e) (
    set_elapsed (wrap_ulong (e - si)) ;;
    pos <- get position ;;
    tgt <- get target ;;
    when (negb (pos =? tgt)) (
      dp <- get dir_pin ;;
      digitalWrite dp (if pos <? tgt then HIGH else LOW) ;;
      sp <- get step_pin ;;
      digitalWrite sp HIGH ;;
      (if pos <? tgt
       then set_position (wrap_long (pos + 1))
       else set_position (wrap_long (pos - 1))) ;;
      digitalWrite sp LOW)).

(** [void incrementTarget(long offset) { target += offset; }] *)
Definition incrementTarget (offset : Z) : M unit :=
  tgt <- get target ;; set_target (wrap_long (tgt + offset)).

(** [void setTarget(long position) { target = position; }] *)
Definition setTarget (position : Z) : M unit := set_target position.

(** [long currentPosition(void) { return position; }] *)
Definition currentPosition : M Z := get position.

(** [void setSpeed(int speed)]: the quotient [1000000 / speed] is taken
    in [long] (the literal does not fit an [int]), truncating, and is
    converted to [unsigned long] by the assignment. *)
Definition setSpeed (speed : Z) : M unit :=
  when (0 <? speed) (
    set_step_interval (wrap_ulong (1000000 ÷ speed)) ;;
    si <- get step_interval ;;
    when (si =? 0) (set_step_interval 1)).

(** The object after a call, and the pin writes of the call. *)
Definition after {A} (m : M A) (s : state) : state := snd (fst (m s)).
Definition writes {A} (m : M A) (s : state) : list pin_write := snd (m s).

(** The operations a caller can apply to a constructed object. *)
Inductive op : Type :=
| PollForInterval (interval : Z)
| IncrementTarget (offset : Z)
| SetTarget (position : Z)
| SetSpeed (speed : Z).

Definition call (o : op) : M unit :=
  match o with
  | PollForInterval interval => pollForInterval interval
  | IncrementTarget offset => incrementTarget offset
  | SetTarget position => setTarget position
  | SetSpeed speed => setSpeed speed
  end.

(** The arguments of an operation hold values of their C types. *)
Definition op_typed (o : op) : Prop :=
  match o with
  | PollForInterval interval => is_ulong interval
  | IncrementTarget offset => is_long offset
  | SetTarget position => is_long position
  | SetSpeed speed => - 2 ^ 15 <= speed < 2 ^ 15
  end.

(** A sequence of polls, one per interval of the list. *)
Fixpoint polls (intervals : list Z) : M unit :=
  match intervals with
  | [] => ret tt
  | i :: rest => pollForInterval i ;; polls rest
  end.

(** The objects observed after each poll of a sequence. *)
Fixpoint trajectory (intervals : list Z) (s : state) : list state :=
  match intervals with
  | [] => []
  | i :: rest =>
      let s1 := after (pollForInterval i) s in
      s1 :: trajectory rest s1
  end.

(** Step pulses of a trace: the writes of HIGH to the step pin that are
    directly followed by a write of LOW to the step pin. *)
Fixpoint pulses (sp : Z) (tr : list pin_write) : Z :=
  match tr with
  | [] => 0
  | DigitalWrite p v :: tl =>
      (match v, tl with
       | HIGH, DigitalWrite p' LOW :: _ =>
           if (p =? sp) && (p' =? sp) then 1 else 0
       | _, _ => 0
       end) + pulses sp tl
  end.

(** The three writes of one emitted step. *)
Definition step_writes (s : state) (d : level) : list pin_write :=
  [DigitalWrite (dir_pin s) d;
   DigitalWrite (step_pin s) HIGH;
   DigitalWrite (step_pin s) LOW].

(** The poll as one expression over the object before the call. *)
Definition poll_result (s : state) (interval : Z) : state * list pin_write :=
  let e1 := wrap_ulong (elapsed s + interval) in
  if step_interval s <=? e1 then
    let e2 := wrap_ulong (e1 - step_interval s) in
    if position s =? target s then
      (mk (step_pin s) (dir_pin s) (target s) (step_interval s) (position s) e2, [])
    else if position s <? target s then
      (mk (step_pin s) (dir_pin s) (target s) (step_interval s)
          (wrap_long (position s + 1)) e2, step_writes s HIGH)
    else
      (mk (step_pin s) (dir_pin s) (target s) (step_interval s)
          (wrap_long (position s - 1)) e2, step_writes s LOW)
  else
    (mk (step_pin s) (dir_pin s) (target s) (step_interval s) (position s) e1, []).

(** What one poll does, case by case. *)
Variant poll_case (s : state) (interval : Z) : state -> list pin_write -> Prop :=
| poll_wait :
    wrap_ulong (elapsed s + interval) < step_interval s ->
    poll_case s interval
      (mk (step_pin s) (dir_pin s) (target s) (step_interval s) (position s)
          (wrap_ulong (elapsed s + interval))) []
| poll_idle :
    step_interval s <= wrap_ulong (elapsed s + interval) ->
    position s = target s ->
    poll_case s interval
      (mk (step_pin s) (dir_pin s) (target s) (step_interval s) (position s)
          (wrap_ulong (wrap_ulong (elapsed s + interval) - step_interval s))) []
| poll_up :
    step_interval s <= wrap_ulong (elapsed s + interval) ->
    position s < target s ->
    poll_case s interval
      (mk (step_pin s) (dir_pin s) (target s) (step_interval s) (position s + 1)
          (wrap_ulong (wrap_ulong (elapsed s + interval) - step_interval s)))
      (step_writes s HIGH)
| poll_down :
    step_interval s <= wrap_ulong (elapsed s + interval) ->
    target s < position s ->
    poll_case s interval
      (mk (step_pin s) (dir_pin s) (target s) (step_interval s) (position s - 1)
          (wrap_ulong (wrap_ulong (elapsed s + interval) - step_interval s)))
      (step_writes s LOW).

(** [n] steps in one direction, as a trace. *)
Definition steps_trace (s : state) (d : level) (n : nat) : list pin_write :=
  concat (repeat (step_writes s d) n).

(** A sequence of calls on the object, in order. *)
Fixpoint calls (ops : list op) : M unit :=
  match ops with
  | [] => ret tt
  | o :: rest => call o ;; calls rest
  end.

(** The time a sequence of polls accounts for. *)
Definition total_time (intervals : list Z) : Z := fold_right Z.add 0 intervals.

Definition is_poll (o : op) : bool :=
  match o with PollForInterval _ => true | _ => false end.

End Stepper.

(** ** IEEE binary32 arithmetic, the [float] of the target *)

Module F32.

Definition prec : Z := 24.
Definition emax : Z := 128.

Definition float : Type := spec_float.

Definition add : float -> float -> float := SFadd prec emax.
Definition sub : float -> float -> float := SFsub prec emax.
Definition mul : float -> float -> float := SFmul prec emax.
Definition div : float -> float -> float := SFdiv prec emax.
Definition sqrtf : float -> float := SFsqrt prec emax.
Definition opp : float -> float := SFopp.
Definition fabs : float -> float := SFabs.

(** The C comparisons [==], [<], [<=] and [>]; all are false on NaN. *)
Definition eqb : float -> float -> bool := SFeqb.
Definition ltb : float -> float -> bool := SFltb.
Definition leb : float -> float -> bool := SFleb.
Definition gtb (x y : float) : bool := SFltb y x.

(** Conversion of an integer to [float], rounding to nearest even. *)
Definition of_Z (n : Z) : float := binary_normalize prec emax n 0 false.

Definition zero : float := S754_zero false.

Definition is_nan (x : float) : bool :=
  match x with S754_nan => true | _ => false end.

Definition is_zero (x : float) : bool :=
  match x with S754_zero _ => true | _ => false end.

(** Zero, subnormal or normal: neither NaN nor an infinity. *)
Definition is_finite (x : float) : bool :=
  match x with S754_zero _ | S754_finite _ _ _ => true | _ => false end.

(** The same number: identical, or two zeros (which may differ in
    sign). *)
Definition same_value (x y : float) : Prop :=
  x = y \/ (is_zero x = true /\ is_zero y = true).

(** A canonical binary32 number: the mantissa and exponent of a finite
    value are the ones the format prescribes. *)
Definition valid (x : float) : bool := valid_binary prec emax x.

(** The literal [1e-6] rounded to binary32. *)
Definition lit_1e_6 : float := S754_finite false 8796093 (-43).

(** Truncation toward zero of a finite float, as the cast [(long) x]
    computes it when the result fits; [None] where the cast is
    undefined (NaN, infinities, out of range). *)
Definition to_long (x : float) : option Z :=
  match x with
  | S754_zero _ => Some 0
  | S754_finite s m e =>
      let a := if 0 <=? e then Z.shiftl (Zpos m) e else Z.shiftr (Zpos m) (- e) in
      let v := if s then - a else a in
      if (CInt.LONG_MIN <=? v) && (v <=? CInt.LONG_MAX) then Some v else None
  | _ => None
  end.

End F32.

(** ** What the code takes from [Arduino.h] and [math.h] *)

Module Arduino.
Import F32.

(** Modelled from the spec: the macro [constrain] of Arduino.h is not
    part of the repository sources; the spec calls it
    [clamp(x, lo, hi)].  It is the comparison chain
    [((amt)<(low)?(low):((amt)>(high)?(high):(amt)))]. *)
Definition constrain (amt low high : float) : float :=
  if ltb amt low then low else if gtb amt high then high else amt.

(** Modelled from the spec: the macro [min] of Arduino.h, the spec's
    [min(step_max, |err|)]: [((a)<(b)?(a):(b))]. *)
Definition min (a b : float) : float := if ltb a b then a else b.

(** Modelled from the spec: the macro [abs] of Arduino.h, the spec's
    [|v|], here at type [long]: [((x)>0?(x):-(x))]; the negation wraps
    at [LONG_MIN]. *)
Definition abs (x : Z) : Z := if 0 <? x then x else CInt.wrap_long (- x).

(** Modelled from the spec: [INFINITY] of math.h, the spec's [+∞]. *)
Definition INFINITY : float := S754_infinity false.

(** Modelled from the spec: [isinf] of math.h, true on both
    infinities ("if [speed] is infinite"). *)
Definition isinf (x : float) : bool :=
  match x with S754_infinity _ => true | _ => false end.

(** Modelled from the spec: [M_PI] of math.h, the spec's [π], rounded
    to binary32. *)
Definition M_PI : float := S754_finite false 13176795 (-22).

End Arduino.

(** ** Path.h / Path.cpp *)

Module Path.
Import F32 Arduino.

(** The instance variables of [class Path]. *)
Record state : Type := mk
  { q : float;
    qd : float;
    qdd : float;
    q_d : float;
    qd_d : float;
    q_d_d : float;
    speed : float;
    t : float;
    k : float;
    b : float;
    qd_max : float;
    qdd_max : float }.

(** Assignments to one instance variable. *)
Definition set_q (p : state) (v : float) : state :=
  mk v (qd p) (qdd p) (q_d p) (qd_d p) (q_d_d p) (speed p) (t p) (k p) (b p)
     (qd_max p) (qdd_max p).
Definition set_qd (p : state) (v : float) : state :=
  mk (q p) v (qdd p) (q_d p) (qd_d p) (q_d_d p) (speed p) (t p) (k p) (b p)
     (qd_max p) (qdd_max p).
Definition set_q_d (p : state) (v : float) : state :=
  mk (q p) (qd p) (qdd p) v (qd_d p) (q_d_d p) (speed p) (t p) (k p) (b p)
     (qd_max p) (qdd_max p).
Definition set_qd_d (p : state) (v : float) : state :=
  mk (q p) (qd p) (qdd p) (q_d p) v (q_d_d p) (speed p) (t p) (k p) (b p)
     (qd_max p) (qdd_max p).
Definition set_q_d_d (p : state) (v : float) : state :=
  mk (q p) (qd p) (qdd p) (q_d p) (qd_d p) v (speed p) (t p) (k p) (b p)
     (qd_max p) (qdd_max p).
Definition set_speed (p : state) (v : float) : state :=
  mk (q p) (qd p) (qdd p) (q_d p) (qd_d p) (q_d_d p) v (t p) (k p) (b p)
     (qd_max p) (qdd_max p).
Definition set_t (p : state) (v : float) : state :=
  mk (q p) (qd p) (qdd p) (q_d p) (qd_d p) (q_d_d p) (speed p) v (k p) (b p)
     (qd_max p) (qdd_max p).
Definition set_k (p : state) (v : float) : state :=
  mk (q p) (qd p) (qdd p) (q_d p) (qd_d p) (q_d_d p) (speed p) (t p) v (b p)
     (qd_max p) (qdd_max p).
Definition set_b (p : state) (v : float) : state :=
  mk (q p) (qd p) (qdd p) (q_d p) (qd_d p) (q_d_d p) (speed p) (t p) (k p) v
     (qd_max p) (qdd_max p).
Definition set_qd_max (p : state) (v : float) : state :=
  mk (q p) (qd p) (qdd p) (q_d p) (qd_d p) (q_d_d p) (speed p) (t p) (k p) (b p)
     v (qdd_max p).
Definition set_qdd_max (p : state) (v : float) : state :=
  mk (q p) (qd p) (qdd p) (q_d p) (qd_d p) (q_d_d p) (speed p) (t p) (k p) (b p)
     (qd_max p) v.

(** [void incrementTarget(long offset) { q_d_d += offset; }] *)
Definition incrementTarget (p : state) (offset : Z) : state :=
  set_q_d_d p (add (q_d_d p) (of_Z offset)).

(** [void incrementReference(long offset) { q_d += offset; }] *)
Definition incrementReference (p : state) (offset : Z) : state :=
  set_q_d p (add (q_d p) (of_Z offset)).

(** [void setTarget(long position) { q_d_d = position; }] *)
Definition setTarget (p : state) (position : Z) : state :=
  set_q_d_d p (of_Z position).

(** [void setSpeed(long newspeed)
     { speed = (newspeed <= 0) ? INFINITY : newspeed; }] *)
Definition setSpeed (p : state) (newspeed : Z) : state :=
  set_speed p (if newspeed <=? 0 then INFINITY else of_Z newspeed).

(** [void setVelocity(long newspeed)] *)
Definition setVelocity (p : state) (newspeed : Z) : state :=
  let p := set_speed p (of_Z (abs newspeed)) in
  if 0 <=? newspeed then set_q_d_d p INFINITY
  else set_q_d_d p (opp INFINITY).

(** [long currentPosition(void) { return (long) q; }] *)
Definition currentPosition (p : state) : option Z := to_long (q p).

(** [long currentVelocity(void) { return (long) qd; }] *)
Definition currentVelocity (p : state) : option Z := to_long (qd p).

(** [void setPDgains(float k_new, float b_new) { k = k_new; b = b_new; }] *)
Definition setPDgains (p : state) (k_new b_new : float) : state :=
  set_b (set_k p k_new) b_new.

(** [void setFreqDamping(float freq, float damping)] *)
Definition setFreqDamping (p : state) (freq damping : float) : state :=
  let p := set_k p (mul (mul (mul (mul freq freq) (of_Z 4)) M_PI) M_PI) in
  set_b p (mul (mul (of_Z 2) (sqrtf (k p))) damping).

(** [void setLimits(float qdmax, float qddmax)] *)
Definition setLimits (p : state) (qdmax qddmax : float) : state :=
  set_qdd_max (set_qd_max p qdmax) qddmax.

(** [Path::Path()]; the gains and limits are assigned before the
    constructor returns, their placeholder is never read. *)
Definition Path : state :=
  let p := {| q := zero; qd := zero; qdd := zero; q_d := zero; qd_d := zero;
              q_d_d := zero; speed := INFINITY; t := of_Z 0;
              k := zero; b := zero; qd_max := zero; qdd_max := zero |} in
  let p := setFreqDamping p (of_Z 2) (of_Z 1) in
  let p := set_qd_max p (of_Z 2400) in
  set_qdd_max p (of_Z 24000).

(** [float dt = 1e-6 * interval;] *)
Definition dt_of (interval : Z) : float := mul lit_1e_6 (of_Z interval).

(** The acceleration commanded by the virtual spring and damper,
    [k * (q_d - q) + b * (qd_d - qd)]. *)
Definition raw_qdd (p : state) : float :=
  add (mul (k p) (sub (q_d p) (q p))) (mul (b p) (sub (qd_d p) (qd p))).

(** The acceleration after [constrain(qdd, -qdd_max, qdd_max)]. *)
Definition clamped_qdd (p : state) : float :=
  constrain (raw_qdd p) (opp (qdd_max p)) (qdd_max p).

(** The velocity after [qd += qdd * dt], before it is clamped. *)
Definition integrated_qd (p : state) (interval : Z) : float :=
  add (qd p) (mul (clamped_qdd p) (dt_of interval)).

(** [void Path::pollForInterval(unsigned long interval)]; the local
    [qdd] of the function hides the instance variable, which is never
    assigned. *)
Definition pollForInterval (p : state) (interval : Z) : state :=
  let dt := dt_of interval in
  let qdd := add (mul (k p) (sub (q_d p) (q p))) (mul (b p) (sub (qd_d p) (qd p))) in
  let qdd := constrain qdd (opp (qdd_max p)) (qdd_max p) in
  let p := set_q p (add (q p) (mul (qd p) dt)) in
  let p := set_qd p (add (qd p) (mul qdd dt)) in
  let p := set_t p (add (t p) dt) in
  let p := set_qd p (constrain (qd p) (opp (qd_max p)) (qd_max p)) in
  let q_d_err := sub (q_d_d p) (q_d p) in
  if eqb q_d_err zero then
    set_qd_d p zero
  else
    if isinf (speed p) then
      let p := set_q_d p (q_d_d p) in
      set_qd_d p zero
    else
      let d_q_d_max := mul (speed p) dt in
      if gtb q_d_err zero then
        let d_q_d := min d_q_d_max q_d_err in
        let p := set_q_d p (add (q_d p) d_q_d) in
        set_qd_d p (speed p)
      else
        let d_q_d := min d_q_d_max (opp q_d_err) in
        let p := set_q_d p (sub (q_d p) d_q_d) in
        set_qd_d p (opp (speed p)).

(** The operations a caller can apply to a constructed object. *)
Inductive op : Type :=
| PollForInterval (interval : Z)
| IncrementTarget (offset : Z)
| IncrementReference (offset : Z)
| SetTarget (position : Z)
| SetSpeed (newspeed : Z)
| SetVelocity (newspeed : Z)
| SetPDgains (k_new b_new : float)
| SetFreqDamping (freq damping : float)
| SetLimits (qdmax qddmax : float).

Definition call (p : state) (o : op) : state :=
  match o with
  | PollForInterval interval => pollForInterval p interval
  | IncrementTarget offset => incrementTarget p offset
  | IncrementReference offset => incrementReference p offset
  | SetTarget position => setTarget p position
  | SetSpeed newspeed => setSpeed p newspeed
  | SetVelocity newspeed => setVelocity p newspeed
  | SetPDgains k_new b_new => setPDgains p k_new b_new
  | SetFreqDamping freq damping => setFreqDamping p freq damping
  | SetLimits qdmax qddmax => setLimits p qdmax qddmax
  end.

(** A command sequence applied to the freshly constructed object. *)
Definition run (ops : list op) : state := fold_left call ops Path.

(** The command sequence that leaves a NaN in the reference position:
    velocity mode, then unlimited speed (the reference jumps to the
    infinite target), then a finite speed (the ramp step computes
    [inf - inf]). *)
Definition nan_reference_commands : list op :=
  [SetVelocity 1; SetSpeed 0; PollForInterval 1000;
   SetSpeed 5; PollForInterval 1000].

(** A sequence of polls, one per interval of the list. *)
Definition polls (p : state) (intervals : list Z) : state :=
  fold_left pollForInterval intervals p.

(** A sequence of calls on the object, in order. *)
Definition calls (p : state) (ops : list op) : state := fold_left call ops p.

Definition is_poll (o : op) : bool :=
  match o with PollForInterval _ => true | _ => false end.

(** The model at rest on a finite target: reference on the target,
    position the same number as the reference, both velocities zero. *)
Definition at_rest (p : state) : Prop :=
  is_finite (q_d_d p) = true /\ q_d p = q_d_d p /\
  same_value (q p) (q_d p) /\
  is_zero (qd p) = true /\ is_zero (qd_d p) = true.

(** Finite gains and non-negative limits. *)
Definition sane_config (p : state) : Prop :=
  is_finite (k p) = true /\ is_finite (b p) = true /\
  leb zero (qd_max p) = true /\ leb zero (qdd_max p) = true.

End Path.

(** * Properties of the step generator *)

Section StepperFacts.
Import CInt Stepper.

Lemma wrap_ulong_id (n : Z) : is_ulong n -> wrap_ulong n = n.
Proof. unfold is_ulong, wrap_ulong. intros H. now apply Z.mod_small. Qed.

Lemma wrap_ulong_range (n : Z) : is_ulong (wrap_ulong n).
Proof.
  unfold is_ulong, wrap_ulong, ULONG_MOD.
  apply Z.mod_pos_bound. reflexivity.
Qed.

Lemma wrap_long_id (n : Z) : is_long n -> wrap_long n = n.
Proof.
  unfold is_long, wrap_long, LONG_MIN, LONG_MAX, ULONG_MOD. intros H.
  rewrite Z.mod_small; lia.
Qed.

Lemma wrap_long_range (n : Z) : is_long (wrap_long n).
Proof.
  unfold is_long, wrap_long, LONG_MIN, LONG_MAX, ULONG_MOD.
  pose proof (Z.mod_pos_bound (n + 2 ^ 31) (2 ^ 32) eq_refl). lia.
Qed.

Lemma pollForInterval_eq (s : state) (interval : Z) :
  pollForInterval interval s =
  (tt, fst (poll_result s interval), snd (poll_result s interval)).
Proof.
  unfold pollForInterval, poll_result, bind, get, set_elapsed, set_position,
    when, ret, digitalWrite, step_writes; cbn.
  destruct (step_interval s <=? wrap_ulong (elapsed s + interval)); cbn;
    [ | reflexivity ].
  destruct (position s =? target s); cbn; [ reflexivity | ].
  destruct (position s <? target s); reflexivity.
Qed.

Lemma after_poll (s : state) (interval : Z) :
  after (pollForInterval interval) s = fst (poll_result s interval).
Proof. unfold after. now rewrite pollForInterval_eq. Qed.

Lemma writes_poll (s : state) (interval : Z) :
  writes (pollForInterval interval) s = snd (poll_result s interval).
Proof. unfold writes. now rewrite pollForInterval_eq. Qed.

Lemma pulses_step_writes (s : state) (d : level) (rest : list pin_write) :
  pulses (step_pin s) (step_writes s d ++ rest) = 1 + pulses (step_pin s) rest.
Proof.
  unfold step_writes; cbn [app pulses].
  rewrite Z.eqb_refl; cbn [andb].
  destruct d; lia.
Qed.

Lemma poll_cases (s : state) (interval : Z) :
  wf s ->
  poll_case s interval (after (pollForInterval interval) s)
                       (writes (pollForInterval interval) s).
Proof.
  intros (_ & _ & Ht & _ & Hp & _).
  rewrite after_poll, writes_poll. unfold poll_result.
  unfold is_long, LONG_MIN, LONG_MAX in *.
  destruct (Z.leb_spec (step_interval s) (wrap_ulong (elapsed s + interval)));
    cbn [fst snd]; [ | now constructor ].
  destruct (Z.eqb_spec (position s) (target s)); cbn [fst snd];
    [ now constructor | ].
  destruct (Z.ltb_spec (position s) (target s)); cbn [fst snd].
  - rewrite wrap_long_id by (unfold is_long, LONG_MIN, LONG_MAX; lia).
    now constructor.
  - rewrite wrap_long_id by (unfold is_long, LONG_MIN, LONG_MAX; lia).
    constructor; [ assumption | lia ].
Qed.

Lemma poll_wf (s : state) (interval : Z) :
  wf s -> wf (after (pollForInterval interval) s).
Proof.
  intros Hwf. pose proof (poll_cases s interval Hwf) as Hc.
  destruct Hwf as (H1 & H2 & H3 & H4 & H5 & H6).
  unfold is_long, LONG_MIN, LONG_MAX in *.
  destruct Hc; unfold wf; cbn;
    repeat match goal with |- _ /\ _ => split end;
    auto using wrap_ulong_range;
    unfold is_long, LONG_MIN, LONG_MAX; lia.
Qed.

Lemma poll_keeps_config (s : state) (interval : Z) :
  let s' := after (pollForInterval interval) s in
  step_pin s' = step_pin s /\ dir_pin s' = dir_pin s /\
  target s' = target s /\ step_interval s' = step_interval s.
Proof.
  cbv zeta. rewrite after_poll. unfold poll_result.
  destruct (step_interval s <=? _); [ | now cbn ].
  destruct (position s =? target s); [ now cbn | ].
  destruct (position s <? target s); now cbn.
Qed.

Lemma polls_cons (i : Z) (rest : list Z) (s : state) :
  polls (i :: rest) s =
  (tt, after (polls rest) (after (pollForInterval i) s),
   writes (pollForInterval i) s
     ++ writes (polls rest) (after (pollForInterval i) s)).
Proof.
  cbn [polls]. unfold bind, after, writes.
  destruct (pollForInterval i s) as [[[] s1] w1]. cbn [fst snd].
  destruct (polls rest s1) as [[[] s2] w2]. reflexivity.
Qed.

Lemma after_polls_cons (i : Z) (rest : list Z) (s : state) :
  after (polls (i :: rest)) s = after (polls rest) (after (pollForInterval i) s).
Proof. unfold after at 1. now rewrite polls_cons. Qed.

Lemma writes_polls_cons (i : Z) (rest : list Z) (s : state) :
  writes (polls (i :: rest)) s =
  writes (pollForInterval i) s
    ++ writes (polls rest) (after (pollForInterval i) s).
Proof. unfold writes at 1. now rewrite polls_cons. Qed.

Lemma after_polls_app (l1 l2 : list Z) (s : state) :
  after (polls (l1 ++ l2)) s = after (polls l2) (after (polls l1) s).
Proof.
  revert s. induction l1 as [ | i l1 IH ]; intros s; [ reflexivity | ].
  rewrite <- app_comm_cons, !after_polls_cons. apply IH.
Qed.

Lemma writes_polls_app (l1 l2 : list Z) (s : state) :
  writes (polls (l1 ++ l2)) s =
  writes (polls l1) s ++ writes (polls l2) (after (polls l1) s).
Proof.
  revert s. induction l1 as [ | i l1 IH ]; intros s; [ reflexivity | ].
  rewrite <- app_comm_cons, !writes_polls_cons, after_polls_cons, IH.
  now rewrite app_assoc.
Qed.

Lemma steps_trace_pins (s1 s2 : state) (d : level) (n : nat) :
  step_pin s1 = step_pin s2 -> dir_pin s1 = dir_pin s2 ->
  steps_trace s1 d n = steps_trace s2 d n.
Proof. unfold steps_trace, step_writes. now intros -> ->. Qed.

Lemma pulses_steps_trace (s : state) (d : level) (n : nat) :
  pulses (step_pin s) (steps_trace s d n) = Z.of_nat n.
Proof.
  unfold steps_trace. induction n as [ | n IH ]; [ reflexivity | ].
  cbn [repeat concat]. rewrite pulses_step_writes, IH. lia.
Qed.

Ltac unfold_ranges :=
  unfold wf, is_uint8, is_long, is_ulong, LONG_MIN, LONG_MAX, ULONG_MOD in *.

(** C2.  One call of [Stepper::pollForInterval] writes either nothing
    or the three writes of a single step (direction, step HIGH, step
    LOW), so it emits at most one pulse; [position] changes by at most
    one; when a pulse is emitted the distance to [target] shrinks by
    exactly one, otherwise [position] stays, so the distance never
    grows. *)
Theorem poll_at_most_one_pulse (s : state) (interval : Z) :
  wf s ->
  let s' := after (pollForInterval interval) s in
  let tr := writes (pollForInterval interval) s in
  (tr = [] \/ exists d, tr = step_writes s d) /\
  0 <= pulses (step_pin s) tr <= 1 /\
  Z.abs (position s' - position s) <= 1 /\
  target s' = target s /\
  (pulses (step_pin s) tr = 1 ->
   Z.abs (target s - position s') = Z.abs (target s - position s) - 1) /\
  (pulses (step_pin s) tr = 0 -> position s' = position s) /\
  Z.abs (target s' - position s') <= Z.abs (target s - position s).
Proof.
  intros Hwf s' tr. subst s' tr.
  destruct (poll_cases s interval Hwf).
  1-2: cbn; repeat split; try lia; now left.
  all: rewrite <- (app_nil_r (step_writes s _)), pulses_step_writes.
  all: rewrite app_nil_r; cbn [pulses position target].
  all: repeat split; try lia; right; eexists; reflexivity.
Qed.

Lemma poll_at_most_one_pulse_witness :
  wf (Stepper.mk 2 5 3 200 0 150) /\
  0 <= pulses 2 (writes (pollForInterval 50) (Stepper.mk 2 5 3 200 0 150)) <= 1.
Proof.
  assert (Hwf : wf (Stepper.mk 2 5 3 200 0 150)) by (unfold_ranges; cbn; lia).
  split; [ exact Hwf | ].
  exact (proj1 (proj2 (poll_at_most_one_pulse _ 50 Hwf))).
Defined.

Lemma poll_wait_eq (sp dp tg si pos el i : Z) :
  0 <= el + i < si -> si < ULONG_MOD ->
  pollForInterval i (Stepper.mk sp dp tg si pos el) =
  (tt, Stepper.mk sp dp tg si pos (el + i), []).
Proof.
  intros H1 H2. rewrite pollForInterval_eq. unfold poll_result.
  cbn [elapsed step_interval position target step_pin dir_pin].
  rewrite wrap_ulong_id by (unfold is_ulong; lia).
  destruct (Z.leb_spec si (el + i)); [ lia | reflexivity ].
Qed.

Lemma poll_up_eq (sp dp tg si pos el i : Z) :
  wf (Stepper.mk sp dp tg si pos el) ->
  si <= el + i < ULONG_MOD -> pos < tg ->
  pollForInterval i (Stepper.mk sp dp tg si pos el) =
  (tt, Stepper.mk sp dp tg si (pos + 1) (el + i - si),
   step_writes (Stepper.mk sp dp tg si pos el) HIGH).
Proof.
  intros Hwf H1 H2. rewrite pollForInterval_eq. unfold poll_result.
  cbn [elapsed step_interval position target step_pin dir_pin].
  unfold_ranges. cbn in Hwf.
  rewrite (wrap_ulong_id (el + i)) by (unfold is_ulong, ULONG_MOD; lia).
  rewrite wrap_ulong_id by (unfold is_ulong, ULONG_MOD; lia).
  rewrite wrap_long_id by (unfold is_long, LONG_MIN, LONG_MAX; lia).
  destruct (Z.leb_spec si (el + i)); [ | lia ].
  destruct (Z.eqb_spec pos tg); [ lia | ].
  destruct (Z.ltb_spec pos tg); [ reflexivity | lia ].
Qed.

(** Four polls of 50 microseconds at a step interval of 200, starting
    with an empty accumulator below the target: one step up. *)
Lemma four_polls_one_step (sp dp tg pos : Z) :
  wf (Stepper.mk sp dp tg 200 pos 0) -> pos < tg ->
  polls [50; 50; 50; 50] (Stepper.mk sp dp tg 200 pos 0) =
  (tt, Stepper.mk sp dp tg 200 (pos + 1) 0,
   step_writes (Stepper.mk sp dp tg 200 pos 0) HIGH).
Proof.
  intros Hwf Hlt.
  cbn [polls]. unfold bind.
  rewrite poll_wait_eq by (unfold ULONG_MOD; lia). cbv beta iota.
  rewrite poll_wait_eq by (unfold ULONG_MOD; lia). cbv beta iota.
  rewrite poll_wait_eq by (unfold ULONG_MOD; lia). cbv beta iota.
  rewrite poll_up_eq;
    [ | unfold_ranges; cbn in *; lia | unfold ULONG_MOD; lia | assumption ].
  reflexivity.
Qed.

Lemma polls_steady_rate (n : nat) (sp dp tg pos : Z) :
  wf (Stepper.mk sp dp tg 200 pos 0) -> pos + Z.of_nat n <= tg ->
  polls (repeat 50 (4 * n)) (Stepper.mk sp dp tg 200 pos 0) =
  (tt, Stepper.mk sp dp tg 200 (pos + Z.of_nat n) 0,
   steps_trace (Stepper.mk sp dp tg 200 pos 0) HIGH n).
Proof.
  revert pos. induction n as [ | n IH ]; intros pos Hwf Hle.
  - cbn. now rewrite Z.add_0_r.
  - replace (4 * S n)%nat with (4 + 4 * n)%nat by lia.
    rewrite repeat_app. change (repeat 50 4) with [50; 50; 50; 50].
    assert (Hwf' : wf (Stepper.mk sp dp tg 200 (pos + 1) 0))
      by (unfold_ranges; cbn in *; lia).
    assert (E : polls ([50; 50; 50; 50] ++ repeat 50 (4 * n))
                  (Stepper.mk sp dp tg 200 pos 0)
                = (tt, after (polls ([50; 50; 50; 50] ++ repeat 50 (4 * n)))
                         (Stepper.mk sp dp tg 200 pos 0),
                   writes (polls ([50; 50; 50; 50] ++ repeat 50 (4 * n)))
                         (Stepper.mk sp dp tg 200 pos 0))).
    { unfold after, writes. now destruct (polls _ _) as [[[] ?] ?]. }
    rewrite E, after_polls_app, writes_polls_app.
    unfold after at 2 3, writes at 1. rewrite four_polls_one_step by (assumption || lia).
    cbn [fst snd]. unfold after, writes. rewrite IH by (assumption || lia).
    cbn [fst snd].
    rewrite (steps_trace_pins (Stepper.mk sp dp tg 200 (pos + 1) 0)
               (Stepper.mk sp dp tg 200 pos 0) HIGH n eq_refl eq_refl).
    unfold steps_trace. cbn [repeat concat].
    replace (pos + 1 + Z.of_nat n) with (pos + Z.of_nat (S n)) by lia.
    reflexivity.
Qed.

(** C5.  With an empty accumulator, a step interval of 200 microseconds
    and a target one million steps ahead, 20000 polls of 50
    microseconds emit exactly 5000 pulses and advance [position] by
    exactly 5000. *)
Theorem rate_5000_steps_per_second (s : state) :
  wf s ->
  elapsed s = 0 -> step_interval s = 200 ->
  target s = position s + 1000000 ->
  let run := polls (repeat 50 (Z.to_nat 20000)) in
  pulses (step_pin s) (writes run s) = 5000 /\
  position (after run s) = position s + 5000.
Proof.
  intros Hwf He Hi Ht run; subst run.
  destruct s as [sp dp tg si pos el]; cbn in He, Hi, Ht; subst el si.
  replace (Z.to_nat 20000) with (4 * Z.to_nat 5000)%nat by lia.
  unfold after, writes.
  rewrite polls_steady_rate by (assumption || lia).
  cbn [fst snd position step_pin].
  change sp with (step_pin (Stepper.mk sp dp tg 200 pos 0)) at 1.
  rewrite pulses_steps_trace. lia.
Qed.

Lemma rate_5000_steps_per_second_witness :
  let s := after (setTarget 1000000) (Stepper 2 5) in
  wf s /\ elapsed s = 0 /\ step_interval s = 200 /\
  target s = position s + 1000000 /\
  pulses 2 (writes (polls (repeat 50 (Z.to_nat 20000))) s) = 5000 /\
  position (after (polls (repeat 50 (Z.to_nat 20000))) s) = 5000.
Proof.
  cbv zeta.
  assert (Hwf : wf (after (setTarget 1000000) (Stepper 2 5)))
    by (unfold_ranges; cbn; lia).
  split; [ exact Hwf | ].
  do 3 (split; [ reflexivity | ]).
  exact (rate_5000_steps_per_second _ Hwf eq_refl eq_refl eq_refl).
Defined.

(** While the target is not above the position, every poll sequence
    emits only downward steps, each with the direction written LOW. *)
Lemma polls_downward (intervals : list Z) (s : state) :
  wf s -> target s <= position s ->
  exists n : nat,
    Z.of_nat n <= position s - target s /\
    writes (polls intervals) s = steps_trace s LOW n /\
    position (after (polls intervals) s) = position s - Z.of_nat n.
Proof.
  revert s. induction intervals as [ | i rest IH ]; intros s Hwf Hle.
  - exists 0%nat. cbn. split; [ lia | split; [ reflexivity | lia ] ].
  - rewrite writes_polls_cons, after_polls_cons.
    pose proof (poll_wf s i Hwf) as Hwf1.
    pose proof (poll_cases s i Hwf) as Hc.
    set (s1 := after (pollForInterval i) s) in *.
    set (w1 := writes (pollForInterval i) s) in *.
    destruct Hc as [ Hlt | Hge Heq | Hge Hlt | Hge Hgt ].
    + destruct (IH _ Hwf1 Hle) as (n & Hn & Hw & Hp).
      exists n. cbn [app]. rewrite Hw, Hp. cbn [position target] in *.
      repeat split; assumption.
    + destruct (IH _ Hwf1 Hle) as (n & Hn & Hw & Hp).
      exists n. cbn [app]. rewrite Hw, Hp. cbn [position target] in *.
      repeat split; assumption.
    + lia.
    + assert (Hle1 : target s <= position s - 1) by lia.
      destruct (IH _ Hwf1 Hle1) as (n & Hn & Hw & Hp).
      exists (S n). rewrite Hw, Hp. cbn [position target] in *.
      repeat split; lia.
Qed.

(** C6.  A poll that emits a pulse writes the direction pin first, then
    raises and lowers the step pin; the level written is HIGH exactly
    when [position < target] and LOW exactly when [position > target].
    From position 100, after [setTarget(-100)], every poll sequence
    emits only steps whose direction write is LOW (the first one
    included), and each of them decrements [position]. *)
Theorem dir_pin_matches_motion (s : state) :
  wf s ->
  (forall interval,
     let tr := writes (pollForInterval interval) s in
     tr = [] \/
     exists d,
       tr = [DigitalWrite (dir_pin s) d;
             DigitalWrite (step_pin s) HIGH;
             DigitalWrite (step_pin s) LOW] /\
       (d = HIGH <-> position s < target s) /\
       (d = LOW <-> position s > target s)) /\
  (position s = 100 ->
   forall intervals,
     let s1 := after (setTarget (-100)) s in
     exists n : nat,
       writes (polls intervals) s1 =
         concat (repeat [DigitalWrite (dir_pin s) LOW;
                         DigitalWrite (step_pin s) HIGH;
                         DigitalWrite (step_pin s) LOW] n) /\
       pulses (step_pin s) (writes (polls intervals) s1) = Z.of_nat n /\
       position (after (polls intervals) s1) = 100 - Z.of_nat n).
Proof.
  intros Hwf. split.
  - intros interval tr; subst tr.
    destruct (poll_cases s interval Hwf); [ now left | now left | | ];
      right; eexists; (split; [ reflexivity | ]);
      split; split; intros; try lia; try reflexivity; discriminate.
  - intros Hpos intervals s1.
    assert (Hwf1 : wf s1)
      by (subst s1; unfold_ranges; cbn; lia).
    assert (Hle : target s1 <= position s1) by (subst s1; cbn; lia).
    destruct (polls_downward intervals s1 Hwf1 Hle) as (n & _ & Hw & Hp).
    exists n. rewrite Hp, Hw. split; [ reflexivity | ]. split.
    + apply (pulses_steps_trace s1).
    + subst s1. unfold after, setTarget, set_target.
      cbn [fst snd position]. lia.
Qed.

Lemma dir_pin_matches_motion_witness :
  wf (Stepper.mk 2 5 7 200 100 150) /\
  exists n : nat,
    pulses 2 (writes (polls [50; 200])
                (after (setTarget (-100)) (Stepper.mk 2 5 7 200 100 150)))
      = Z.of_nat n /\
    position (after (polls [50; 200])
                (after (setTarget (-100)) (Stepper.mk 2 5 7 200 100 150)))
      = 100 - Z.of_nat n.
Proof.
  assert (Hwf : wf (Stepper.mk 2 5 7 200 100 150)) by (unfold_ranges; cbn; lia).
  split; [ exact Hwf | ].
  destruct (proj2 (dir_pin_matches_motion _ Hwf) eq_refl [50; 200])
    as (n & _ & Hn & Hp).
  exists n. split; [ exact Hn | exact Hp ].
Defined.

Lemma setSpeed_positive (s : state) (v : Z) :
  0 < v ->
  after (setSpeed v) s =
  Stepper.mk (step_pin s) (dir_pin s) (target s) (Z.max 1 (1000000 / v))
             (position s) (elapsed s).
Proof.
  intros Hv. unfold after, setSpeed, when, bind, get, set_step_interval, ret.
  destruct (Z.ltb_spec 0 v); [ | lia ]. cbn.
  assert (Hq : 1000000 ÷ v = 1000000 / v) by (apply Z.quot_div_nonneg; lia).
  assert (Hr : 0 <= 1000000 / v <= 1000000).
  { split; [ apply Z.div_pos; lia | ].
    apply Z.div_le_upper_bound; [ lia | nia ]. }
  rewrite Hq, wrap_ulong_id by (unfold is_ulong, ULONG_MOD; lia).
  destruct (Z.eqb_spec (1000000 / v) 0) as [ E | E ]; cbn.
  - rewrite E. reflexivity.
  - f_equal. lia.
Qed.

Lemma setSpeed_ignored (s : state) (v : Z) :
  v <= 0 -> setSpeed v s = (tt, s, []).
Proof.
  intros Hv. unfold setSpeed, when, ret.
  destruct (Z.ltb_spec 0 v); [ lia | reflexivity ].
Qed.

(** Every object built by the constructor and driven through its
    operations is well formed and has a step interval of at least 1. *)
Lemma constructed_wf (sp dp : Z) :
  is_uint8 sp -> is_uint8 dp ->
  wf (Stepper sp dp) /\ 1 <= step_interval (Stepper sp dp).
Proof. intros H1 H2. unfold_ranges. cbn. lia. Qed.

Lemma call_wf (o : op) (s : state) :
  op_typed o -> wf s -> 1 <= step_interval s ->
  wf (after (call o) s) /\ 1 <= step_interval (after (call o) s).
Proof.
  intros Ho Hwf Hs.
  destruct o as [ interval | offset | pos | speed ]; cbn [call op_typed] in *.
  - split; [ now apply poll_wf | ].
    now rewrite (proj2 (proj2 (proj2 (poll_keeps_config s interval)))).
  - pose proof (wrap_long_range (target s + offset)) as Hr.
    split; [ | exact Hs ]. unfold_ranges. cbn. lia.
  - split; [ | exact Hs ]. unfold_ranges. cbn. lia.
  - destruct (Z.ltb_spec 0 speed).
    + rewrite setSpeed_positive by assumption.
      assert (0 <= 1000000 / speed <= 1000000).
      { split; [ apply Z.div_pos; lia | ].
        apply Z.div_le_upper_bound; [ lia | nia ]. }
      unfold_ranges. cbn. lia.
    + unfold after. rewrite setSpeed_ignored by assumption. now split.
Qed.

(** C8.  [setSpeed(v)] with [v > 0] stores [max(1, 1000000 / v)] in
    [step_interval]; with [v <= 0] it changes nothing; the constructor
    stores 200; hence [step_interval >= 1] is preserved by every
    operation on the object. *)
Theorem setSpeed_step_interval (s : state) (v : Z) :
  (0 < v -> step_interval (after (setSpeed v) s) = Z.max 1 (1000000 / v)) /\
  (v <= 0 -> after (setSpeed v) s = s /\ writes (setSpeed v) s = []) /\
  (forall sp dp, step_interval (Stepper sp dp) = 200) /\
  (forall o, 1 <= step_interval s -> 1 <= step_interval (after (call o) s)).
Proof.
  split; [ | split; [ | split ] ].
  - intros Hv. now rewrite setSpeed_positive.
  - intros Hv. unfold after, writes. now rewrite setSpeed_ignored.
  - reflexivity.
  - intros [ interval | offset | pos | speed ] Hs; cbn [call].
    + now rewrite (proj2 (proj2 (proj2 (poll_keeps_config s interval)))).
    + exact Hs.
    + exact Hs.
    + destruct (Z.ltb_spec 0 speed).
      * rewrite setSpeed_positive by assumption. cbn. lia.
      * unfold after. now rewrite setSpeed_ignored.
Qed.

Lemma setSpeed_step_interval_witness :
  0 < 3000 /\
  step_interval (after (setSpeed 3000) (Stepper 2 5)) = Z.max 1 (1000000 / 3000) /\
  1 <= step_interval (after (call (SetSpeed 30000)) (Stepper 2 5)).
Proof.
  split; [ lia | split ].
  - apply (proj1 (setSpeed_step_interval (Stepper 2 5) 3000)). lia.
  - apply (proj2 (proj2 (proj2 (setSpeed_step_interval (Stepper 2 5) 0)))).
    cbn. lia.
Defined.

(** One poll keeps the accumulator below the step interval when the
    interval argument does not exceed the step interval. *)
Lemma poll_elapsed_below (s : state) (i : Z) :
  wf s -> 0 <= i <= step_interval s ->
  0 <= elapsed s < step_interval s ->
  0 <= elapsed (after (pollForInterval i) s)
    < step_interval (after (pollForInterval i) s).
Proof.
  intros Hwf Hi He.
  pose proof (wrap_ulong_range (elapsed s + i)) as Hr.
  assert (Hw : wrap_ulong (elapsed s + i) = elapsed s + i \/
               wrap_ulong (elapsed s + i) = elapsed s + i - ULONG_MOD).
  { unfold wrap_ulong, ULONG_MOD.
    destruct Hwf as (_ & _ & _ & H4 & _ & H6). unfold_ranges.
    destruct (Z.lt_ge_cases (elapsed s + i) (2 ^ 32)).
    - left. apply Z.mod_small. lia.
    - right. symmetry. apply (Z.mod_unique _ _ 1); lia. }
  destruct Hwf as (_ & _ & _ & H4 & _ & H6). unfold_ranges.
  rewrite after_poll. unfold poll_result.
  destruct (Z.leb_spec (step_interval s) (wrap_ulong (elapsed s + i))).
  - assert (Hs : wrap_ulong (wrap_ulong (elapsed s + i) - step_interval s)
                 = wrap_ulong (elapsed s + i) - step_interval s)
      by (apply wrap_ulong_id; unfold is_ulong, ULONG_MOD; lia).
    destruct (position s =? target s); [ | destruct (position s <? target s) ];
      cbn [fst elapsed step_interval]; rewrite Hs; lia.
  - cbn [fst elapsed step_interval]. lia.
Qed.

Lemma trajectory_elapsed_below (intervals : list Z) (s : state) :
  wf s ->
  0 <= elapsed s < step_interval s ->
  Forall (fun i => 0 <= i <= step_interval s) intervals ->
  Forall (fun s' => 0 <= elapsed s' < step_interval s') (trajectory intervals s).
Proof.
  revert s. induction intervals as [ | i rest IH ]; intros s Hwf He Hall.
  - constructor.
  - inversion Hall as [ | ? ? Hi Hrest ]; subst. cbn [trajectory].
    pose proof (poll_elapsed_below s i Hwf Hi He) as He1.
    constructor; [ exact He1 | ].
    apply IH; [ now apply poll_wf | exact He1 | ].
    now rewrite (proj2 (proj2 (proj2 (poll_keeps_config s i)))).
Qed.

(** C9.  When the accumulated time reaches the step interval it is
    reduced by the step interval whether or not a step is emitted, in
    particular while [position == target]; so with every interval
    argument at most [step_interval], [elapsed < step_interval] holds
    after every poll of a sequence started at [elapsed = 0]; and the
    first poll after [setTarget] emits a pulse as soon as the
    accumulator reaches the step interval, as it does after an idle
    poll of 150 and a poll of 50 microseconds at the initial interval
    of 200. *)
Theorem elapsed_stays_below_interval (s : state) :
  wf s -> 1 <= step_interval s ->
  (forall i,
     step_interval s <= wrap_ulong (elapsed s + i) ->
     elapsed (after (pollForInterval i) s)
       = wrap_ulong (elapsed s + i) - step_interval s /\
     (position s = target s -> writes (pollForInterval i) s = [])) /\
  (forall intervals,
     elapsed s = 0 ->
     Forall (fun i => 0 <= i <= step_interval s) intervals ->
     Forall (fun s' => 0 <= elapsed s' < step_interval s')
            (trajectory intervals s)) /\
  (forall i tgt,
     is_long tgt -> tgt <> position s ->
     step_interval s <= wrap_ulong (elapsed s + i) ->
     pulses (step_pin s)
            (writes (pollForInterval i) (after (setTarget tgt) s)) = 1) /\
  (let idle := after (pollForInterval 150) (Stepper 2 5) in
   elapsed idle = 150 /\
   writes (pollForInterval 150) (Stepper 2 5) = [] /\
   pulses 2 (writes (pollForInterval 50) (after (setTarget 1) idle)) = 1).
Proof.
  intros Hwf Hsi. split; [ | split; [ | split ] ].
  - intros i Hi.
    pose proof (wrap_ulong_range (elapsed s + i)) as Hr.
    destruct Hwf as (_ & _ & _ & H4 & _ & _). unfold_ranges.
    rewrite after_poll, writes_poll. unfold poll_result.
    destruct (Z.leb_spec (step_interval s) (wrap_ulong (elapsed s + i)));
      [ | lia ].
    rewrite wrap_ulong_id by (unfold is_ulong, ULONG_MOD; lia).
    destruct (Z.eqb_spec (position s) (target s)).
    + now cbn.
    + destruct (position s <? target s); cbn; (split; [ reflexivity | lia ]).
  - intros intervals He Hall.
    apply trajectory_elapsed_below; [ assumption | lia | assumption ].
  - intros i tgt Htgt Hne Hi.
    set (s1 := after (setTarget tgt) s).
    assert (Hwf1 : wf s1) by (subst s1; unfold_ranges; cbn; lia).
    change (step_pin s) with (step_pin s1).
    destruct (poll_cases s1 i Hwf1) as [ Hlt | Hge Heq | Hge Hlt | Hge Hgt ].
    + subst s1. cbn in Hlt. lia.
    + subst s1. cbn in Heq. lia.
    + rewrite <- (app_nil_r (step_writes s1 _)). now rewrite pulses_step_writes.
    + rewrite <- (app_nil_r (step_writes s1 _)). now rewrite pulses_step_writes.
  - repeat split.
Qed.

Lemma elapsed_stays_below_interval_witness :
  wf (Stepper 2 5) /\ 1 <= step_interval (Stepper 2 5) /\
  Forall (fun s' => 0 <= elapsed s' < step_interval s')
         (trajectory [150; 50; 200; 0] (Stepper 2 5)).
Proof.
  assert (Hwf : wf (Stepper 2 5)) by (unfold_ranges; cbn; lia).
  assert (Hsi : 1 <= step_interval (Stepper 2 5)) by (cbn; lia).
  split; [ exact Hwf | split; [ exact Hsi | ] ].
  apply (proj1 (proj2 (elapsed_stays_below_interval _ Hwf Hsi))).
  - reflexivity.
  - repeat constructor; cbn; lia.
Defined.

(** ** Further properties of the step generator *)

(** While the target is not below the position, every poll sequence
    emits only upward steps, each with the direction written HIGH. *)
Lemma polls_upward (intervals : list Z) (s : state) :
  wf s -> position s <= target s ->
  exists n : nat,
    Z.of_nat n <= target s - position s /\
    writes (polls intervals) s = steps_trace s HIGH n /\
    position (after (polls intervals) s) = position s + Z.of_nat n.
Proof.
  revert s. induction intervals as [ | i rest IH ]; intros s Hwf Hle.
  - exists 0%nat. cbn. split; [ lia | split; [ reflexivity | lia ] ].
  - rewrite writes_polls_cons, after_polls_cons.
    pose proof (poll_wf s i Hwf) as Hwf1.
    pose proof (poll_cases s i Hwf) as Hc.
    set (s1 := after (pollForInterval i) s) in *.
    set (w1 := writes (pollForInterval i) s) in *.
    destruct Hc as [ Hlt | Hge Heq | Hge Hlt | Hge Hgt ].
    + destruct (IH _ Hwf1 Hle) as (n & Hn & Hw & Hp).
      exists n. cbn [app]. rewrite Hw, Hp. cbn [position target] in *.
      repeat split; assumption.
    + destruct (IH _ Hwf1 Hle) as (n & Hn & Hw & Hp).
      exists n. cbn [app]. rewrite Hw, Hp. cbn [position target] in *.
      repeat split; assumption.
    + assert (Hle1 : position s + 1 <= target s) by lia.
      destruct (IH _ Hwf1 Hle1) as (n & Hn & Hw & Hp).
      exists (S n). rewrite Hw, Hp. cbn [position target] in *.
      repeat split; lia.
    + lia.
Qed.

Lemma polls_keep_config (intervals : list Z) (s : state) :
  let s' := after (polls intervals) s in
  step_pin s' = step_pin s /\ dir_pin s' = dir_pin s /\
  target s' = target s /\ step_interval s' = step_interval s.
Proof.
  cbv zeta. revert s. induction intervals as [ | i rest IH ]; intros s.
  - now cbn.
  - rewrite after_polls_cons.
    destruct (IH (after (pollForInterval i) s)) as (H1 & H2 & H3 & H4).
    destruct (poll_keeps_config s i) as (K1 & K2 & K3 & K4).
    cbv zeta in *. repeat split; congruence.
Qed.

(** X1.  Over any sequence of polls (the target left alone), [position]
    stays between where it started and the target, never passing it;
    the number of pulses emitted is exactly the distance covered, and
    all pulses go in the direction of the target. *)
Theorem polls_never_overshoot (s : state) (intervals : list Z) :
  wf s ->
  let s' := after (polls intervals) s in
  let tr := writes (polls intervals) s in
  Z.min (position s) (target s) <= position s' <= Z.max (position s) (target s) /\
  pulses (step_pin s) tr = Z.abs (position s' - position s) /\
  Z.abs (target s - position s') =
    Z.abs (target s - position s) - pulses (step_pin s) tr /\
  (exists n : nat,
     tr = steps_trace s (if position s <? target s then HIGH else LOW) n).
Proof.
  intros Hwf s' tr; subst s' tr.
  destruct (Z.le_gt_cases (position s) (target s)) as [ Hle | Hgt ].
  - destruct (polls_upward intervals s Hwf Hle) as (n & Hn & Hw & Hp).
    rewrite Hw, Hp, pulses_steps_trace.
    repeat split; try lia.
    destruct (Z.ltb_spec (position s) (target s)).
    + now exists n.
    + exists 0%nat. assert (n = 0%nat) by lia. now subst n.
  - assert (Hle : target s <= position s) by lia.
    destruct (polls_downward intervals s Hwf Hle) as (n & Hn & Hw & Hp).
    rewrite Hw, Hp, pulses_steps_trace.
    repeat split; try lia.
    destruct (Z.ltb_spec (position s) (target s)); [ lia | ].
    now exists n.
Qed.

Lemma polls_never_overshoot_witness :
  wf (Stepper.mk 2 5 (-3) 200 4 0) /\
  Z.min 4 (-3) <= position (after (polls [250; 250; 0; 7])
                               (Stepper.mk 2 5 (-3) 200 4 0)) <= Z.max 4 (-3).
Proof.
  assert (Hwf : wf (Stepper.mk 2 5 (-3) 200 4 0)) by (unfold_ranges; cbn; lia).
  split; [ exact Hwf | ].
  exact (proj1 (polls_never_overshoot _ [250; 250; 0; 7] Hwf)).
Defined.

(** X2.  Once [position] equals [target], no sequence of polls writes a
    pin or moves [position], whatever the intervals. *)
Theorem polls_idle_at_target (s : state) (intervals : list Z) :
  wf s -> position s = target s ->
  writes (polls intervals) s = [] /\
  position (after (polls intervals) s) = position s.
Proof.
  intros Hwf Heq.
  assert (Hle : target s <= position s) by lia.
  destruct (polls_downward intervals s Hwf Hle) as (n & Hn & Hw & Hp).
  assert (n = 0%nat) by lia. subst n.
  rewrite Hw, Hp. split; [ reflexivity | lia ].
Qed.

Lemma polls_idle_at_target_witness :
  wf (Stepper.mk 2 5 9 200 9 123) /\ 9 = 9 /\
  writes (polls [1000; 200; 77]) (Stepper.mk 2 5 9 200 9 123) = [].
Proof.
  assert (Hwf : wf (Stepper.mk 2 5 9 200 9 123)) by (unfold_ranges; cbn; lia).
  split; [ exact Hwf | split; [ reflexivity | ] ].
  exact (proj1 (polls_idle_at_target _ [1000; 200; 77] Hwf eq_refl)).
Defined.

(** A poll whose interval is the step interval itself emits a step
    whenever the position is off the target, and leaves the accumulator
    as it was. *)
Lemma poll_full_interval (s : state) :
  wf s -> elapsed s + step_interval s < ULONG_MOD ->
  let s' := after (pollForInterval (step_interval s)) s in
  elapsed s' = elapsed s /\
  Z.abs (target s - position s') = Z.max 0 (Z.abs (target s - position s) - 1) /\
  pulses (step_pin s) (writes (pollForInterval (step_interval s)) s)
    = Z.min 1 (Z.abs (target s - position s)).
Proof.
  intros Hwf Hno. cbv zeta.
  assert (He : wrap_ulong (elapsed s + step_interval s) = elapsed s + step_interval s).
  { apply wrap_ulong_id. destruct Hwf as (_ & _ & _ & H4 & _ & H6).
    unfold_ranges. lia. }
  assert (He2 : wrap_ulong (elapsed s + step_interval s - step_interval s) = elapsed s).
  { replace (elapsed s + step_interval s - step_interval s) with (elapsed s) by lia.
    apply wrap_ulong_id. apply Hwf. }
  assert (H6 : 0 <= elapsed s) by (destruct Hwf as (_ & _ & _ & _ & _ & H6); apply H6).
  destruct (poll_cases s (step_interval s) Hwf) as [ Hlt | Hge Heq | Hge Hlt | Hge Hgt ].
  - rewrite He in Hlt. lia.
  - rewrite He, He2. cbn. repeat split; lia.
  - rewrite He, He2.
    rewrite <- (app_nil_r (step_writes s _)), pulses_step_writes.
    cbn. repeat split; lia.
  - rewrite He, He2.
    rewrite <- (app_nil_r (step_writes s _)), pulses_step_writes.
    cbn. repeat split; lia.
Qed.

(** X3.  Polling with the step interval as the interval argument makes
    one step per poll: after [n] polls the distance to the target is
    [max(0, distance - n)] and [min(n, distance)] pulses were emitted,
    so [n >= distance] polls bring [position] exactly onto [target]. *)
Theorem polls_reach_target (n : nat) (s : state) :
  wf s -> elapsed s + step_interval s < ULONG_MOD ->
  let run := polls (repeat (step_interval s) n) in
  Z.abs (target s - position (after run s))
    = Z.max 0 (Z.abs (target s - position s) - Z.of_nat n) /\
  pulses (step_pin s) (writes run s)
    = Z.min (Z.of_nat n) (Z.abs (target s - position s)) /\
  (Z.abs (target s - position s) <= Z.of_nat n ->
   position (after run s) = target s).
Proof.
  cbv zeta. revert s. induction n as [ | n IH ]; intros s Hwf Hno.
  - cbn [repeat polls]. cbn. repeat split; lia.
  - cbn [repeat]. rewrite after_polls_cons, writes_polls_cons.
    destruct (poll_full_interval s Hwf Hno) as (He & Hd & Hp). cbv zeta in *.
    destruct (poll_keeps_config s (step_interval s)) as (K1 & K2 & K3 & K4).
    cbv zeta in *.
    pose proof (poll_wf s (step_interval s) Hwf) as Hwf1.
    set (s1 := after (pollForInterval (step_interval s)) s) in *.
    assert (Hno1 : elapsed s1 + step_interval s1 < ULONG_MOD) by (rewrite He, K4; exact Hno).
    destruct (IH s1 Hwf1 Hno1) as (I1 & I2 & I3).
    rewrite K4 in I1, I2, I3. rewrite K3, K1 in *.
    destruct (poll_cases s (step_interval s) Hwf) as [ Hlt | Hge Heq | Hge Hlt | Hge Hgt ];
      fold s1 in I1, I2, I3, Hd, Hp |- *.
    + cbn [app]. cbn [pulses] in Hp. repeat split; lia.
    + cbn [app]. cbn [pulses] in Hp. repeat split; lia.
    + rewrite pulses_step_writes.
      rewrite <- (app_nil_r (step_writes s _)), pulses_step_writes in Hp.
      cbn [pulses] in Hp. repeat split; lia.
    + rewrite pulses_step_writes.
      rewrite <- (app_nil_r (step_writes s _)), pulses_step_writes in Hp.
      cbn [pulses] in Hp. repeat split; lia.
Qed.

Lemma polls_reach_target_witness :
  let s := Stepper.mk 2 5 3 200 (-2) 10 in
  wf s /\ elapsed s + step_interval s < ULONG_MOD /\
  (Z.abs (target s - position s) <= Z.of_nat 7 ->
   position (after (polls (repeat (step_interval s) 7)) s) = target s).
Proof.
  cbv zeta.
  assert (Hwf : wf (Stepper.mk 2 5 3 200 (-2) 10)) by (unfold_ranges; cbn; lia).
  assert (Hno : elapsed (Stepper.mk 2 5 3 200 (-2) 10)
                + step_interval (Stepper.mk 2 5 3 200 (-2) 10) < ULONG_MOD)
    by (unfold ULONG_MOD; cbn; lia).
  split; [ exact Hwf | split; [ exact Hno | ] ].
  exact (proj2 (proj2 (polls_reach_target 7 _ Hwf Hno))).
Defined.

(** One poll accounts for its interval: what is not kept in the
    accumulator pays for at most one step interval, and pays for a
    whole one when a pulse is emitted. *)
Lemma poll_accounts (s : state) (i : Z) :
  wf s -> 0 <= i -> elapsed s + i < ULONG_MOD ->
  let s' := after (pollForInterval i) s in
  let n := pulses (step_pin s) (writes (pollForInterval i) s) in
  0 <= n <= 1 /\
  n * step_interval s + elapsed s' <= elapsed s + i /\
  (position s <> target s ->
   n * step_interval s + elapsed s' = elapsed s + i) /\
  0 <= elapsed s' <= elapsed s + i.
Proof.
  intros Hwf Hi Hno. cbv zeta.
  pose proof Hwf as (W1 & W2 & W3 & W4 & W5 & W6).
  assert (He : wrap_ulong (elapsed s + i) = elapsed s + i)
    by (apply wrap_ulong_id; unfold_ranges; lia).
  destruct (poll_cases s i Hwf) as [ Hlt | Hge Heq | Hge Hlt | Hge Hgt ];
    rewrite He in *; unfold_ranges.
  - cbn [pulses elapsed position target]. repeat split; intros; lia.
  - rewrite wrap_ulong_id by (unfold is_ulong, ULONG_MOD; lia).
    cbn [pulses elapsed position target]. repeat split; intros; lia.
  - rewrite wrap_ulong_id by (unfold is_ulong, ULONG_MOD; lia).
    rewrite <- (app_nil_r (step_writes s _)), pulses_step_writes.
    cbn [pulses elapsed position target]. repeat split; intros; lia.
  - rewrite wrap_ulong_id by (unfold is_ulong, ULONG_MOD; lia).
    rewrite <- (app_nil_r (step_writes s _)), pulses_step_writes.
    cbn [pulses elapsed position target]. repeat split; intros; lia.
Qed.

Lemma pulses_app_step (s : state) (a b : list pin_write) :
  (a = [] \/ exists d, a = step_writes s d) ->
  pulses (step_pin s) (a ++ b) = pulses (step_pin s) a + pulses (step_pin s) b.
Proof.
  intros [ -> | [ d -> ] ]; [ reflexivity | ].
  rewrite pulses_step_writes.
  rewrite <- (app_nil_r (step_writes s d)), pulses_step_writes.
  cbn [pulses]. lia.
Qed.

Lemma poll_step_shape (s : state) (i : Z) :
  wf s ->
  (writes (pollForInterval i) s = [] \/
   exists d, writes (pollForInterval i) s = step_writes s d) /\
  Z.abs (target s - position s) - 1
    <= Z.abs (target s - position (after (pollForInterval i) s)).
Proof.
  intros Hwf.
  destruct (poll_cases s i Hwf); cbn [position]; split; try lia;
    first [ now left | right; eexists; reflexivity ].
Qed.

(** X4.  The step rate is bounded by the step interval: over a sequence
    of polls whose accumulated time does not overflow the accumulator,
    [pulses * step_interval + elapsed] afterwards is at most [elapsed]
    before plus the total polled time, with equality while the target
    is farther away than the number of polls. *)
Theorem pulse_rate_bounded (intervals : list Z) (s : state) :
  wf s -> Forall (fun i => 0 <= i) intervals ->
  elapsed s + total_time intervals < ULONG_MOD ->
  let s' := after (polls intervals) s in
  let n := pulses (step_pin s) (writes (polls intervals) s) in
  n * step_interval s + elapsed s' <= elapsed s + total_time intervals /\
  (Z.of_nat (length intervals) <= Z.abs (target s - position s) ->
   n * step_interval s + elapsed s' = elapsed s + total_time intervals).
Proof.
  cbv zeta. revert s. induction intervals as [ | i rest IH ]; intros s Hwf Hall Hno.
  - cbn. split; lia.
  - inversion Hall as [ | ? ? Hi Hrest ]; subst.
    assert (Htot : 0 <= total_time rest).
    { clear - Hrest. unfold total_time.
      induction Hrest; cbn [fold_right]; lia. }
    unfold total_time in *. cbn [fold_right] in *. fold (total_time rest) in *.
    assert (Hno0 : elapsed s + i < ULONG_MOD) by lia.
    destruct (poll_accounts s i Hwf Hi Hno0) as (A1 & A2 & A3 & A4). cbv zeta in *.
    destruct (poll_keeps_config s i) as (K1 & K2 & K3 & K4). cbv zeta in *.
    destruct (poll_step_shape s i Hwf) as [ T1 T2 ].
    pose proof (poll_wf s i Hwf) as Hwf1.
    rewrite after_polls_cons, writes_polls_cons, pulses_app_step by exact T1.
    set (s1 := after (pollForInterval i) s) in *.
    assert (Hno1 : elapsed s1 + total_time rest < ULONG_MOD) by lia.
    destruct (IH s1 Hwf1 Hrest Hno1) as [ I1 I2 ].
    rewrite K1, K4 in I1, I2. rewrite K3 in I2.
    split; [ nia | ].
    intros Hfar. cbn [length] in Hfar.
    assert (Hne : position s <> target s) by lia.
    specialize (A3 Hne).
    assert (Hfar1 : Z.of_nat (length rest) <= Z.abs (target s - position s1)) by lia.
    specialize (I2 Hfar1). nia.
Qed.

Lemma pulse_rate_bounded_witness :
  let s := Stepper.mk 2 5 1000 200 0 0 in
  wf s /\ Forall (fun i => 0 <= i) [150; 500; 0; 30] /\
  elapsed s + total_time [150; 500; 0; 30] < ULONG_MOD /\
  pulses (step_pin s) (writes (polls [150; 500; 0; 30]) s) * step_interval s
    + elapsed (after (polls [150; 500; 0; 30]) s)
  <= elapsed s + total_time [150; 500; 0; 30].
Proof.
  cbv zeta.
  assert (Hwf : wf (Stepper.mk 2 5 1000 200 0 0)) by (unfold_ranges; cbn; lia).
  assert (Hall : Forall (fun i => 0 <= i) [150; 500; 0; 30])
    by (repeat constructor; lia).
  assert (Hno : elapsed (Stepper.mk 2 5 1000 200 0 0)
                + total_time [150; 500; 0; 30] < ULONG_MOD)
    by (unfold ULONG_MOD; cbn; lia).
  split; [ exact Hwf | split; [ exact Hall | split; [ exact Hno | ] ] ].
  exact (proj1 (pulse_rate_bounded _ _ Hwf Hall Hno)).
Defined.

(** X5.  Only [pollForInterval] writes pins and moves the motor: any
    other operation emits no pin write and leaves [position], [elapsed]
    and the pin numbers as they were. *)
Theorem only_poll_moves (o : op) (s : state) :
  is_poll o = false ->
  writes (call o) s = [] /\
  position (after (call o) s) = position s /\
  elapsed (after (call o) s) = elapsed s /\
  step_pin (after (call o) s) = step_pin s /\
  dir_pin (after (call o) s) = dir_pin s.
Proof.
  intros Ho. destruct o as [ interval | offset | pos | speed ];
    [ discriminate Ho | now cbn | now cbn | ].
  cbn [call]. destruct (Z.ltb_spec 0 speed).
  - unfold writes, after, setSpeed, when, bind, get, set_step_interval, ret.
    destruct (Z.ltb_spec 0 speed); [ | lia ]. cbn.
    destruct (wrap_ulong (1000000 ÷ speed) =? 0); now cbn.
  - unfold writes, after. now rewrite setSpeed_ignored.
Qed.

Lemma only_poll_moves_witness :
  is_poll (SetSpeed 5000) = false /\
  writes (call (SetSpeed 5000)) (Stepper.mk 2 5 40 200 7 120) = [] /\
  position (after (call (SetSpeed 5000)) (Stepper.mk 2 5 40 200 7 120)) = 7.
Proof.
  split; [ reflexivity | ].
  pose proof (only_poll_moves (SetSpeed 5000) (Stepper.mk 2 5 40 200 7 120) eq_refl)
    as (H1 & H2 & _).
  split; [ exact H1 | exact H2 ].
Defined.




(** X7.  [setSpeed(v)] rounds the step interval down, so the step rate it
    allows is never below the one asked for: for [0 < v <= 1000000]
    the stored interval [d] satisfies [d * v <= 1000000 < (d + 1) * v];
    above one million steps per second the interval is 1. *)
Theorem setSpeed_rounds_down (s : state) (v : Z) :
  0 < v ->
  let d := step_interval (after (setSpeed v) s) in
  1 <= d <= 1000000 /\
  (v <= 1000000 -> d * v <= 1000000 < (d + 1) * v) /\
  (1000000 < v -> d = 1).
Proof.
  intros Hv. cbv zeta. rewrite setSpeed_positive by assumption.
  cbn [step_interval].
  pose proof (Z.div_mod 1000000 v ltac:(lia)) as Hdm.
  pose proof (Z.mod_pos_bound 1000000 v Hv) as Hm.
  assert (Hq : 0 <= 1000000 / v) by (apply Z.div_pos; lia).
  split; [ | split ].
  - assert (1000000 / v <= 1000000)
      by (apply Z.div_le_upper_bound; [ lia | nia ]).
    lia.
  - intros Hle.
    assert (1 <= 1000000 / v) by (apply Z.div_le_lower_bound; lia).
    rewrite Z.max_r by lia. nia.
  - intros Hgt. rewrite Z.div_small by lia. reflexivity.
Qed.

Lemma setSpeed_rounds_down_witness :
  0 < 3000 /\
  (3000 <= 1000000 ->
   step_interval (after (setSpeed 3000) (Stepper 2 5)) * 3000 <= 1000000
   < (step_interval (after (setSpeed 3000) (Stepper 2 5)) + 1) * 3000).
Proof.
  split; [ lia | ].
  exact (proj1 (proj2 (setSpeed_rounds_down (Stepper 2 5) 3000 ltac:(lia)))).
Defined.

Lemma calls_cons (o : op) (rest : list op) (s : state) :
  after (calls (o :: rest)) s = after (calls rest) (after (call o) s).
Proof.
  unfold after. cbn [calls]. unfold bind.
  destruct (call o s) as [[[] s1] w1]. cbn [fst snd].
  now destruct (calls rest s1) as [[[] s2] w2].
Qed.

(** X8.  Every object built by the constructor and driven by any
    sequence of well-typed calls holds values of its C types in all its
    fields, keeps the pins it was given, and has a step interval between
    1 and 1000000 microseconds. *)
Theorem constructed_invariant (sp dp : Z) (ops : list op) :
  is_uint8 sp -> is_uint8 dp -> Forall op_typed ops ->
  let s := after (calls ops) (Stepper sp dp) in
  wf s /\ 1 <= step_interval s <= 1000000 /\
  step_pin s = sp /\ dir_pin s = dp.
Proof.
  intros Hsp Hdp Hall. cbv zeta.
  assert (Hinv : forall s0,
             wf s0 /\ 1 <= step_interval s0 <= 1000000 ->
             wf (after (calls ops) s0) /\
             1 <= step_interval (after (calls ops) s0) <= 1000000 /\
             step_pin (after (calls ops) s0) = step_pin s0 /\
             dir_pin (after (calls ops) s0) = dir_pin s0).
  { induction Hall as [ | o rest Ho Hrest IH ]; intros s0 [ Hwf Hsi ].
    - cbn. repeat split; (apply Hwf || lia).
    - rewrite calls_cons.
      destruct (call_wf o s0 Ho Hwf (proj1 Hsi)) as [ Hwf1 Hsi1 ].
      assert (Hcfg : step_interval (after (call o) s0) <= 1000000 /\
                     step_pin (after (call o) s0) = step_pin s0 /\
                     dir_pin (after (call o) s0) = dir_pin s0).
      { destruct o as [ interval | offset | pos | speed ]; cbn [call].
        - destruct (poll_keeps_config s0 interval) as (K1 & K2 & _ & K4).
          cbv zeta in *. rewrite K1, K2, K4. repeat split; lia.
        - cbn. repeat split; lia.
        - cbn. repeat split; lia.
        - destruct (Z.ltb_spec 0 speed).
          + rewrite setSpeed_positive by assumption.
            cbn [step_interval step_pin dir_pin].
            assert (0 <= 1000000 / speed <= 1000000).
            { split; [ apply Z.div_pos; lia | ].
              apply Z.div_le_upper_bound; [ lia | nia ]. }
            repeat split; lia.
          + unfold after. rewrite setSpeed_ignored by assumption.
            cbn [fst snd]. repeat split; lia. }
      destruct Hcfg as (C1 & C2 & C3).
      destruct (IH (after (call o) s0)) as (I1 & I2 & I3 & I4); [ split; [ assumption | lia ] | ].
      rewrite I3, I4, C2, C3.
      split; [ exact I1 | split; [ exact I2 | split; reflexivity ] ]. }
  apply Hinv. split; [ unfold_ranges; cbn; lia | cbn; lia ].
Qed.

Lemma constructed_invariant_witness :
  let ops := [SetSpeed 5000; SetTarget 300; PollForInterval 250;
              IncrementTarget (-7); SetSpeed (-1); PollForInterval 4000000000] in
  is_uint8 2 /\ is_uint8 5 /\ Forall op_typed ops /\
  wf (after (calls ops) (Stepper 2 5)).
Proof.
  cbv zeta.
  assert (H2 : is_uint8 2) by (unfold is_uint8; lia).
  assert (H5 : is_uint8 5) by (unfold is_uint8; lia).
  assert (Hall : Forall op_typed
                   [SetSpeed 5000; SetTarget 300; PollForInterval 250;
                    IncrementTarget (-7); SetSpeed (-1);
                    PollForInterval 4000000000]).
  { repeat constructor; cbn; unfold_ranges; lia. }
  split; [ exact H2 | split; [ exact H5 | split; [ exact Hall | ] ] ].
  exact (proj1 (constructed_invariant 2 5 _ H2 H5 Hall)).
Defined.

End StepperFacts.

(** * Properties of binary32 comparisons and of the Arduino macros *)

Section FloatFacts.
Import F32 Arduino.

(** Case analysis on every integer and mantissa comparison in sight. *)
Ltac cmp_cases :=
  repeat match goal with
  | H : context [Pos.compare_cont Eq ?a ?b] |- _ =>
      change (Pos.compare_cont Eq a b) with (Pos.compare a b) in H
  | |- context [Pos.compare_cont Eq ?a ?b] =>
      change (Pos.compare_cont Eq a b) with (Pos.compare a b)
  end;
  repeat match goal with
  | H : context [Z.compare ?a ?b] |- _ => destruct (Z.compare_spec a b)
  | |- context [Z.compare ?a ?b] => destruct (Z.compare_spec a b)
  | H : context [Pos.compare ?a ?b] |- _ => destruct (Pos.compare_spec a b)
  | |- context [Pos.compare ?a ?b] => destruct (Pos.compare_spec a b)
  end.

Ltac float_cmp :=
  unfold constrain, min, leb, ltb, gtb, eqb, fabs, opp, zero,
    SFleb, SFltb, SFeqb, SFcompare, SFabs, SFopp, is_nan, is_zero, is_finite in *;
  repeat (cbn in *; progress cmp_cases); cbn in *;
  try discriminate; try reflexivity; try lia.

Lemma leb_refl (x : float) : is_nan x = false -> leb x x = true.
Proof. destruct x as [ [] | [] | | [] m e ]; intros H; float_cmp. Qed.

Lemma constrain_is_nan (x lo hi : float) :
  is_nan lo = false -> is_nan hi = false ->
  is_nan (constrain x lo hi) = is_nan x.
Proof.
  intros Hlo Hhi.
  destruct lo as [ [] | [] | | [] ml el ]; try discriminate Hlo;
    destruct hi as [ [] | [] | | [] mh eh ]; try discriminate Hhi;
    destruct x as [ [] | [] | | [] mx ex ]; float_cmp.
Qed.

Lemma constrain_within (x m : float) :
  leb zero m = true -> is_nan x = false ->
  leb (fabs (constrain x (opp m) m)) m = true.
Proof.
  intros Hm Hx.
  destruct m as [ [] | [] | | [] mm em ]; try discriminate Hm;
    destruct x as [ [] | [] | | [] mx ex ]; try discriminate Hx;
    float_cmp.
Qed.

Lemma constrain_inside (x m : float) :
  leb (fabs x) m = true -> constrain x (opp m) m = x.
Proof.
  intros H.
  destruct m as [ [] | [] | | [] mm em ];
    destruct x as [ [] | [] | | [] mx ex ]; float_cmp.
Qed.

Lemma fabs_positive (e : float) : gtb e zero = true -> fabs e = e.
Proof. destruct e as [ [] | [] | | [] m x ]; intros H; float_cmp. Qed.

Lemma opp_negative (e : float) :
  eqb e zero = false -> gtb e zero = false -> opp e = fabs e.
Proof. destruct e as [ [] | [] | | [] m x ]; intros H1 H2; float_cmp. Qed.

Lemma ltb_negative (e : float) :
  ltb e zero = true -> eqb e zero = false /\ gtb e zero = false.
Proof. destruct e as [ [] | [] | | [] m x ]; intros H; split; float_cmp. Qed.

Lemma same_value_eqb (x y : float) :
  is_nan y = false -> same_value x y -> eqb x y = true.
Proof.
  intros Hy [ -> | [ Hx Hz ] ].
  - destruct y as [ [] | [] | | [] m e ]; float_cmp.
  - destruct x as [ [] | [] | | [] m e ]; try discriminate Hx;
      destruct y as [ [] | [] | | [] m' e' ]; try discriminate Hz; reflexivity.
Qed.

Lemma same_value_fabs (x y : float) : same_value x y -> fabs x = fabs y.
Proof.
  intros [ -> | [ Hx Hy ] ]; [ reflexivity | ].
  destruct x; try discriminate Hx; destruct y; try discriminate Hy; reflexivity.
Qed.

Lemma mul_zero_r (x z : float) :
  is_finite x = true -> is_zero z = true -> is_zero (mul x z) = true.
Proof.
  destruct x; try discriminate; destruct z; try discriminate; reflexivity.
Qed.

Lemma add_zero_r (x z : float) :
  is_zero z = true -> is_nan x = false -> same_value (add x z) x.
Proof.
  unfold same_value.
  destruct z as [ sz | | | ]; try discriminate; intros _.
  destruct x as [ sx | sx | | sx m e ]; try discriminate; intros _.
  - right. destruct sx, sz; split; reflexivity.
  - now left.
  - now left.
Qed.

Lemma sub_zero_r (x z : float) :
  is_zero z = true -> is_nan x = false -> same_value (sub x z) x.
Proof.
  unfold same_value.
  destruct z as [ sz | | | ]; try discriminate; intros _.
  destruct x as [ sx | sx | | sx m e ]; try discriminate; intros _.
  - right. destruct sx, sz; split; reflexivity.
  - now left.
  - now left.
Qed.

Lemma dt_of_zero : Path.dt_of 0 = zero.
Proof. reflexivity. Qed.

(** Rounding never invents a NaN or flips the sign. *)
Lemma shr_1_nonneg (mrs : shr_record) :
  0 <= shr_m mrs -> 0 <= shr_m (shr_1 mrs).
Proof.
  destruct mrs as [ m r s ]. destruct m as [ | [ q | q | ] | q ]; cbn; lia.
Qed.

Lemma iter_shr_1_nonneg (n : positive) (mrs : shr_record) :
  0 <= shr_m mrs -> 0 <= shr_m (iter_pos shr_1 n mrs).
Proof.
  revert mrs. induction n as [ n IH | n IH | ]; intros mrs H; cbn.
  - apply IH, IH, shr_1_nonneg, H.
  - apply IH, IH, H.
  - apply shr_1_nonneg, H.
Qed.

Lemma shr_fexp_nonneg (m e : Z) (l : location) :
  0 <= m -> 0 <= shr_m (fst (shr_fexp prec emax m e l)).
Proof.
  intros Hm. unfold shr_fexp, shr.
  assert (H0 : 0 <= shr_m (shr_record_of_loc m l))
    by (destruct l as [ | [] ]; exact Hm).
  destruct (fexp prec emax (Zdigits2 m + e) - e); cbn [fst]; try exact H0.
  now apply iter_shr_1_nonneg.
Qed.

Lemma round_nearest_even_nonneg (m : Z) (l : location) :
  0 <= m -> 0 <= round_nearest_even m l.
Proof.
  intros Hm. destruct l as [ | [] ]; cbn; try lia.
  destruct (Z.even m); lia.
Qed.

Lemma binary_round_aux_sign (sx : bool) (mx ex : Z) (lx : location) :
  0 <= mx ->
  is_nan (binary_round_aux prec emax sx mx ex lx) = false /\
  (sx = false -> leb zero (binary_round_aux prec emax sx mx ex lx) = true).
Proof.
  intros Hm. unfold binary_round_aux.
  pose proof (shr_fexp_nonneg mx ex lx Hm) as H1.
  destruct (shr_fexp prec emax mx ex lx) as [ mrs' e' ]. cbn [fst] in H1.
  pose proof (shr_fexp_nonneg _ e' loc_Exact
                (round_nearest_even_nonneg _ (loc_of_shr_record mrs') H1)) as H2.
  destruct (shr_fexp prec emax _ e' loc_Exact) as [ mrs'' e'' ]. cbn [fst] in H2.
  destruct (shr_m mrs'') as [ | q | q ]; [ | | lia ].
  - split; [ reflexivity | now intros -> ].
  - destruct (e'' <=? emax - prec); (split; [ reflexivity | now intros -> ]).
Qed.

Lemma of_Z_nonneg (n : Z) : 0 <= n -> leb zero (of_Z n) = true.
Proof.
  intros Hn. destruct n as [ | m | m ]; [ reflexivity | | lia ].
  unfold of_Z, binary_normalize, binary_round.
  destruct (shl_align _ _ _) as [ mz ez ].
  apply (binary_round_aux_sign false (Zpos mz) ez loc_Exact); [ lia | reflexivity ].
Qed.

Lemma abs_spec (v : Z) :
  CInt.LONG_MIN < v <= CInt.LONG_MAX -> abs v = Z.abs v.
Proof.
  unfold abs. intros H. destruct (Z.ltb_spec 0 v); [ lia | ].
  rewrite wrap_long_id; [ lia | ].
  unfold CInt.is_long, CInt.LONG_MIN, CInt.LONG_MAX in *. lia.
Qed.

Lemma constrain_finite (x m : float) :
  is_finite m = true -> is_nan x = false ->
  is_finite (constrain x (opp m) m) = true.
Proof.
  intros Hm Hx.
  destruct m as [ [] | [] | | [] mm em ]; try discriminate Hm;
    destruct x as [ [] | [] | | [] mx ex ]; try discriminate Hx; float_cmp.
Qed.

Lemma gtb_not_eqb (e : float) : gtb e zero = true -> eqb e zero = false.
Proof. destruct e as [ [] | [] | | [] m x ]; intros H; float_cmp. Qed.

Lemma min_zero_positive (z e : float) :
  is_zero z = true -> gtb e zero = true -> min z e = z.
Proof.
  destruct z as [ [] | | | ]; try discriminate; intros _;
    destruct e as [ [] | [] | | [] m x ]; intros H; float_cmp.
Qed.

Lemma opp_of_negative (e : float) : ltb e zero = true -> gtb (opp e) zero = true.
Proof. destruct e as [ [] | [] | | [] m x ]; intros H; float_cmp. Qed.

Lemma sub_not_nan_r (x y : float) : is_nan (sub x y) = false -> is_nan y = false.
Proof. destruct y; try reflexivity. now destruct x. Qed.

Lemma gtb_not_nan (e : float) : gtb e zero = true -> is_nan e = false.
Proof. destruct e; try reflexivity. discriminate. Qed.

Lemma ltb_not_nan (e : float) : ltb e zero = true -> is_nan e = false.
Proof. destruct e; try reflexivity. discriminate. Qed.

Lemma finite_not_inf (x : float) : is_finite x = true -> isinf x = false.
Proof. destruct x; try reflexivity; discriminate. Qed.

Lemma finite_not_nan (x : float) : is_finite x = true -> is_nan x = false.
Proof. destruct x; try reflexivity; discriminate. Qed.

(** Integers below [2^24] convert to [float] without rounding, and
    every 32-bit integer converts to a finite float. *)

Lemma digits2_pos_bounds (m : positive) :
  2 ^ (Zpos (digits2_pos m) - 1) <= Zpos m < 2 ^ Zpos (digits2_pos m).
Proof.
  induction m as [ m IH | m IH | ]; cbn [digits2_pos].
  - rewrite Pos2Z.inj_succ.
    replace (Z.succ (Zpos (digits2_pos m)) - 1) with (Z.succ (Zpos (digits2_pos m) - 1)) by lia.
    rewrite !Z.pow_succ_r by lia. lia.
  - rewrite Pos2Z.inj_succ.
    replace (Z.succ (Zpos (digits2_pos m)) - 1) with (Z.succ (Zpos (digits2_pos m) - 1)) by lia.
    rewrite !Z.pow_succ_r by lia. lia.
  - cbn. lia.
Qed.

Lemma iter_xO_value (m k : positive) :
  Zpos (Pos.iter xO m k) = Zpos m * 2 ^ Zpos k.
Proof.
  induction k as [ | k IH ] using Pos.peano_ind.
  - cbn. lia.
  - rewrite Pos.iter_succ, Pos2Z.inj_xO, IH, Pos2Z.inj_succ, Z.pow_succ_r by lia. lia.
Qed.

Lemma iter_xO_digits (m k : positive) :
  digits2_pos (Pos.iter xO m k) = (digits2_pos m + k)%positive.
Proof.
  induction k as [ | k IH ] using Pos.peano_ind.
  - cbn. lia.
  - rewrite Pos.iter_succ. cbn [digits2_pos]. rewrite IH. lia.
Qed.

Lemma of_Z_small (m : positive) :
  Zpos m < 2 ^ 24 ->
  of_Z (Zpos m) =
  match Zpos (digits2_pos m) - 24 with
  | Zneg k => S754_finite false (Pos.iter xO m k) (Zneg k)
  | _ => S754_finite false m 0
  end.
Proof.
  intros Hm. pose proof (digits2_pos_bounds m) as Hd.
  assert (Hd24 : Zpos (digits2_pos m) <= 24).
  { destruct (Z.le_gt_cases (Zpos (digits2_pos m)) 24) as [ H | H ]; [ exact H | ].
    assert (2 ^ 24 <= 2 ^ (Zpos (digits2_pos m) - 1)) by (apply Z.pow_le_mono_r; lia).
    lia. }
  unfold of_Z, binary_normalize, binary_round, shl_align.
  assert (Hf : fexp prec emax (Zpos (digits2_pos m) + 0) = Zpos (digits2_pos m) - 24).
  { unfold fexp, emin, prec, emax. lia. }
  rewrite Hf. rewrite Z.sub_0_r.
  destruct (Zpos (digits2_pos m) - 24) as [ | k | k ] eqn:E; [ | lia | ].
  - unfold binary_round_aux, shr_fexp. cbn [Zdigits2 shr_record_of_loc].
    assert (Hf0 : fexp prec emax (Zpos (digits2_pos m) + 0) - 0 = 0)
      by (unfold fexp, emin, prec, emax; lia).
    rewrite Hf0. cbn [shr shr_m loc_of_shr_record round_nearest_even Zdigits2 shr_record_of_loc].
    rewrite Hf0. cbn [shr shr_m]. reflexivity.
  - unfold binary_round_aux, shr_fexp. cbn [Zdigits2 shr_record_of_loc].
    assert (Hfk : fexp prec emax (Zpos (digits2_pos (Pos.iter xO m k)) + Zneg k) - Zneg k = 0).
    { rewrite iter_xO_digits. unfold fexp, emin, prec, emax. lia. }
    rewrite Hfk. cbn [shr shr_m loc_of_shr_record round_nearest_even Zdigits2 shr_record_of_loc].
    rewrite Hfk. cbn [shr shr_m].
    replace (Zneg k <=? emax - prec) with true; [ reflexivity | ].
    symmetry. apply Z.leb_le. unfold emax, prec. lia.
Qed.

Lemma to_long_of_Z (v : Z) :
  0 <= v < 2 ^ 24 -> to_long (of_Z v) = Some v.
Proof.
  intros Hv. destruct v as [ | m | m ]; [ reflexivity | | lia ].
  rewrite of_Z_small by lia.
  destruct (Zpos (digits2_pos m) - 24) as [ | k | k ] eqn:E.
  - unfold to_long. cbn [Z.leb Z.compare]. rewrite Z.shiftl_0_r.
    unfold CInt.LONG_MIN, CInt.LONG_MAX.
    destruct (Z.leb_spec (- 2 ^ 31) (Zpos m)); [ | lia ].
    destruct (Z.leb_spec (Zpos m) (2 ^ 31 - 1)); [ reflexivity | lia ].
  - pose proof (digits2_pos_bounds m).
    assert (2 ^ 24 <= 2 ^ (Zpos (digits2_pos m) - 1)) by (apply Z.pow_le_mono_r; lia).
    lia.
  - unfold to_long. cbn [Z.leb Z.compare Z.opp].
    rewrite iter_xO_value, Z.shiftr_div_pow2, Z.div_mul by lia.
    unfold CInt.LONG_MIN, CInt.LONG_MAX.
    destruct (Z.leb_spec (- 2 ^ 31) (Zpos m)); [ | lia ].
    destruct (Z.leb_spec (Zpos m) (2 ^ 31 - 1)); [ reflexivity | lia ].
Qed.
Lemma shr_1_le (mrs : shr_record) :
  0 <= shr_m mrs -> 0 <= shr_m (shr_1 mrs) <= shr_m mrs.
Proof.
  destruct mrs as [ m r s ]. destruct m as [ | [ q | q | ] | q ]; cbn; lia.
Qed.

Lemma iter_shr_1_le (n : positive) (mrs : shr_record) :
  0 <= shr_m mrs -> 0 <= shr_m (iter_pos shr_1 n mrs) <= shr_m mrs.
Proof.
  revert mrs. induction n as [ n IH | n IH | ]; intros mrs H; cbn.
  - pose proof (shr_1_le mrs H) as H1.
    pose proof (IH _ (proj1 H1)) as H2.
    pose proof (IH _ (proj1 H2)) as H3. lia.
  - pose proof (IH _ H) as H2.
    pose proof (IH _ (proj1 H2)) as H3. lia.
  - now apply shr_1_le.
Qed.

Lemma shr_fexp_bounds (m e : Z) (l : location) :
  0 <= m ->
  0 <= shr_m (fst (shr_fexp prec emax m e l)) <= m /\
  (snd (shr_fexp prec emax m e l) = e \/
   snd (shr_fexp prec emax m e l) = fexp prec emax (Zdigits2 m + e)).
Proof.
  intros Hm. unfold shr_fexp, shr.
  assert (H0 : shr_m (shr_record_of_loc m l) = m)
    by (destruct l as [ | [] ]; reflexivity).
  destruct (fexp prec emax (Zdigits2 m + e) - e) as [ | n | n ] eqn:E;
    cbn [fst snd].
  - rewrite H0. split; [ lia | now left ].
  - pose proof (iter_shr_1_le n (shr_record_of_loc m l)) as Hi.
    rewrite H0 in Hi. split; [ now apply Hi | right; lia ].
  - rewrite H0. split; [ lia | now left ].
Qed.

Lemma Zdigits2_le (m B : Z) : 0 <= B -> 0 <= m < 2 ^ B -> Zdigits2 m <= B.
Proof.
  intros HB Hm. destruct m as [ | q | q ]; [ cbn; lia | | lia ].
  cbn [Zdigits2]. pose proof (digits2_pos_bounds q) as Hd.
  destruct (Z.le_gt_cases (Zpos (digits2_pos q)) B) as [ H | H ]; [ exact H | ].
  assert (2 ^ B <= 2 ^ (Zpos (digits2_pos q) - 1)) by (apply Z.pow_le_mono_r; lia).
  lia.
Qed.

Lemma round_nearest_even_le (m : Z) (l : location) :
  round_nearest_even m l <= m + 1.
Proof. destruct l as [ | [] ]; cbn; try lia. destruct (Z.even m); lia. Qed.

Lemma binary_round_aux_finite (sx : bool) (mx ex : Z) (lx : location) :
  0 <= mx < 2 ^ 32 -> ex <= 0 ->
  is_finite (binary_round_aux prec emax sx mx ex lx) = true.
Proof.
  intros Hm He. unfold binary_round_aux.
  pose proof (shr_fexp_bounds mx ex lx (proj1 Hm)) as [ H1 H1e ].
  pose proof (Zdigits2_le mx 32 ltac:(lia) Hm) as Hd.
  destruct (shr_fexp prec emax mx ex lx) as [ mrs' e' ]. cbn [fst snd] in *.
  assert (He' : e' <= 8)
    by (unfold fexp, emin, prec, emax in H1e; lia).
  set (m1 := round_nearest_even (shr_m mrs') (loc_of_shr_record mrs')).
  assert (Hm1 : 0 <= m1 < 2 ^ 33).
  { pose proof (round_nearest_even_le (shr_m mrs') (loc_of_shr_record mrs')).
    pose proof (round_nearest_even_nonneg (shr_m mrs') (loc_of_shr_record mrs')
                  (proj1 H1)).
    subst m1. lia. }
  pose proof (shr_fexp_bounds m1 e' loc_Exact (proj1 Hm1)) as [ H2 H2e ].
  pose proof (Zdigits2_le m1 33 ltac:(lia) Hm1) as Hd1.
  destruct (shr_fexp prec emax m1 e' loc_Exact) as [ mrs'' e'' ]. cbn [fst snd] in *.
  assert (He'' : e'' <= 104)
    by (unfold fexp, emin, prec, emax in H2e; lia).
  destruct (shr_m mrs'') as [ | q | q ]; [ reflexivity | | lia ].
  destruct (Z.leb_spec e'' (emax - prec)); [ reflexivity | ].
  unfold emax, prec in *. lia.
Qed.

Lemma of_Z_finite (v : Z) : - 2 ^ 32 < v < 2 ^ 32 -> is_finite (of_Z v) = true.
Proof.
  intros Hv.
  assert (Hpos : forall s m, Zpos m < 2 ^ 32 ->
                   is_finite (binary_round prec emax s m 0) = true).
  { intros s m Hm. unfold binary_round, shl_align.
    assert (Hf : fexp prec emax (Zpos (digits2_pos m) + 0) = Zpos (digits2_pos m) - 24)
      by (unfold fexp, emin, prec, emax; lia).
    rewrite Hf, Z.sub_0_r.
    destruct (Zpos (digits2_pos m) - 24) as [ | k | k ] eqn:E.
    - apply binary_round_aux_finite; lia.
    - apply binary_round_aux_finite; lia.
    - apply binary_round_aux_finite; [ | lia ].
      pose proof (digits2_pos_bounds (Pos.iter xO m k)) as Hd.
      rewrite iter_xO_digits in Hd.
      replace (Zpos (digits2_pos m + k)) with 24 in Hd by lia.
      split; [ lia | ].
      apply Z.lt_trans with (2 ^ 24); [ apply Hd | reflexivity ]. }
  destruct v as [ | m | m ]; [ reflexivity | | ]; apply Hpos; lia.
Qed.
(** The literal [1e-6] is the quotient of 1 by 1000000, correctly
    rounded. *)
Lemma lit_1e_6_rounded : lit_1e_6 = div (of_Z 1) (of_Z 1000000).
Proof. reflexivity. Qed.

(** NaN is absorbing for the arithmetic and passes through the
    comparison macros. *)
Lemma add_nan_l (y : float) : add S754_nan y = S754_nan.
Proof. reflexivity. Qed.

Lemma add_nan_r (x : float) : add x S754_nan = S754_nan.
Proof. now destruct x. Qed.

Lemma sub_nan_l (y : float) : sub S754_nan y = S754_nan.
Proof. reflexivity. Qed.

Lemma sub_nan_r (x : float) : sub x S754_nan = S754_nan.
Proof. now destruct x. Qed.

Lemma mul_nan_l (y : float) : mul S754_nan y = S754_nan.
Proof. reflexivity. Qed.

Lemma mul_nan_r (x : float) : mul x S754_nan = S754_nan.
Proof. now destruct x. Qed.

Lemma constrain_nan (lo hi : float) : constrain S754_nan lo hi = S754_nan.
Proof. unfold constrain, ltb, gtb, SFltb. cbn. now destruct hi. Qed.

Lemma min_nan_r (a : float) : min a S754_nan = S754_nan.
Proof. unfold min, ltb, SFltb. now destruct a. Qed.

Lemma is_nan_eq (x : float) : is_nan x = true -> x = S754_nan.
Proof. destruct x; try discriminate; reflexivity. Qed.

(** Products of finite numbers are numbers, with the sign of the
    factors. *)
Lemma mul_finite_not_nan (x y : float) :
  is_finite x = true -> is_finite y = true -> is_nan (mul x y) = false.
Proof.
  destruct x as [ sx | | | sx mx ex ]; try discriminate;
    destruct y as [ sy | | | sy my ey ]; try discriminate; intros _ _;
    try reflexivity.
  unfold mul, SFmul. now apply binary_round_aux_sign.
Qed.

Lemma mul_nonneg_positive (x : float) (m : positive) (e : Z) :
  leb zero x = true -> leb zero (mul x (S754_finite false m e)) = true.
Proof.
  destruct x as [ [] | [] | | [] mx ex ]; try discriminate; intros _;
    try reflexivity.
  unfold mul, SFmul. cbn [xorb]. now apply binary_round_aux_sign.
Qed.

Lemma mul_positive_nonneg (x : float) (m : positive) (e : Z) :
  leb zero x = true -> leb zero (mul (S754_finite false m e) x) = true.
Proof.
  destruct x as [ [] | [] | | [] mx ex ]; try discriminate; intros _;
    try reflexivity.
  unfold mul, SFmul. cbn [xorb]. now apply binary_round_aux_sign.
Qed.

Lemma mul_self_nonneg (x : float) :
  is_nan x = false -> leb zero (mul x x) = true.
Proof.
  destruct x as [ [] | [] | | s mx ex ]; try discriminate; intros _;
    try reflexivity.
  unfold mul, SFmul. rewrite xorb_nilpotent. now apply binary_round_aux_sign.
Qed.

Lemma mul_nonneg (x y : float) :
  leb zero x = true -> leb zero y = true ->
  is_nan (mul x y) = true \/ leb zero (mul x y) = true.
Proof.
  destruct x as [ [] | [] | | [] mx ex ]; try discriminate; intros _;
    destruct y as [ [] | [] | | [] my ey ]; try discriminate; intros _;
    try (now left); try (now right).
  right. unfold mul, SFmul. cbn [xorb]. now apply binary_round_aux_sign.
Qed.

Lemma sqrtf_nonneg (x : float) : leb zero x = true -> leb zero (sqrtf x) = true.
Proof.
  destruct x as [ [] | [] | | [] mx ex ]; try discriminate; intros _;
    try reflexivity.
  unfold sqrtf, SFsqrt, SFsqrt_core_binary.
  set (m' := match ex - 2 * _ with Z0 => _ | Zpos _ => _ | Zneg _ => _ end).
  pose proof (Z.sqrtrem_sqrt m') as Hs.
  destruct (Z.sqrtrem m') as [ q r ]. cbn [fst] in Hs.
  apply binary_round_aux_sign; [ | reflexivity ].
  rewrite Hs. apply Z.sqrt_nonneg.
Qed.

(** A finite number minus itself is zero. *)
Lemma sub_diag (x : float) : is_finite x = true -> sub x x = zero.
Proof.
  destruct x as [ [] | | | s m e ]; try discriminate; intros _; try reflexivity.
  unfold sub, SFsub. now rewrite Z.sub_diag.
Qed.

Lemma min_infinity_r (a : float) : is_nan a = false -> min a INFINITY = a.
Proof. destruct a as [ [] | [] | | [] m e ]; try discriminate; reflexivity. Qed.

(** The conversion of a 32-bit integer has a mantissa of at most 33 bits
    and a small exponent, so that its product with the literal [1e-6]
    is finite. *)
Lemma binary_round_aux_small (sx : bool) (mx ex : Z) (lx : location) :
  0 <= mx < 2 ^ 32 -> ex <= 0 ->
  match binary_round_aux prec emax sx mx ex lx with
  | S754_zero _ => True
  | S754_finite _ m e => Zpos m <= 2 ^ 32 /\ e <= 17
  | _ => False
  end.
Proof.
  intros Hm He. unfold binary_round_aux.
  pose proof (shr_fexp_bounds mx ex lx (proj1 Hm)) as [ H1 H1e ].
  pose proof (Zdigits2_le mx 32 ltac:(lia) Hm) as Hd.
  destruct (shr_fexp prec emax mx ex lx) as [ mrs' e' ]. cbn [fst snd] in *.
  assert (He' : e' <= 8)
    by (unfold fexp, emin, prec, emax in H1e; lia).
  set (m1 := round_nearest_even (shr_m mrs') (loc_of_shr_record mrs')).
  assert (Hm1 : 0 <= m1 <= 2 ^ 32).
  { pose proof (round_nearest_even_le (shr_m mrs') (loc_of_shr_record mrs')).
    pose proof (round_nearest_even_nonneg (shr_m mrs') (loc_of_shr_record mrs')
                  (proj1 H1)).
    subst m1. lia. }
  pose proof (shr_fexp_bounds m1 e' loc_Exact (proj1 Hm1)) as [ H2 H2e ].
  pose proof (Zdigits2_le m1 33 ltac:(lia) ltac:(lia)) as Hd1.
  destruct (shr_fexp prec emax m1 e' loc_Exact) as [ mrs'' e'' ]. cbn [fst snd] in *.
  assert (He'' : e'' <= 17)
    by (unfold fexp, emin, prec, emax in H2e; lia).
  destruct (shr_m mrs'') as [ | q | q ]; [ exact I | | lia ].
  destruct (Z.leb_spec e'' (emax - prec)); [ split; lia | ].
  unfold emax, prec in *. lia.
Qed.

Lemma of_Z_small_mantissa (v : Z) :
  - 2 ^ 32 < v < 2 ^ 32 ->
  match of_Z v with
  | S754_zero _ => True
  | S754_finite _ m e => Zpos m <= 2 ^ 32 /\ e <= 17
  | _ => False
  end.
Proof.
  intros Hv.
  assert (Hpos : forall s m, Zpos m < 2 ^ 32 ->
                   match binary_round prec emax s m 0 with
                   | S754_zero _ => True
                   | S754_finite _ m e => Zpos m <= 2 ^ 32 /\ e <= 17
                   | _ => False
                   end).
  { intros s m Hm. unfold binary_round, shl_align.
    assert (Hf : fexp prec emax (Zpos (digits2_pos m) + 0) = Zpos (digits2_pos m) - 24)
      by (unfold fexp, emin, prec, emax; lia).
    rewrite Hf, Z.sub_0_r.
    destruct (Zpos (digits2_pos m) - 24) as [ | k | k ] eqn:E.
    - apply binary_round_aux_small; lia.
    - apply binary_round_aux_small; lia.
    - apply binary_round_aux_small; [ | lia ].
      pose proof (digits2_pos_bounds (Pos.iter xO m k)) as Hd.
      rewrite iter_xO_digits in Hd.
      replace (Zpos (digits2_pos m + k)) with 24 in Hd by lia.
      split; [ lia | ].
      apply Z.lt_trans with (2 ^ 24); [ apply Hd | reflexivity ]. }
  destruct v as [ | m | m ]; [ exact I | | ]; apply Hpos; lia.
Qed.

Lemma binary_round_aux_finite_wide (sx : bool) (mx ex : Z) (lx : location) :
  0 <= mx < 2 ^ 64 -> ex <= 0 ->
  is_finite (binary_round_aux prec emax sx mx ex lx) = true.
Proof.
  intros Hm He. unfold binary_round_aux.
  pose proof (shr_fexp_bounds mx ex lx (proj1 Hm)) as [ H1 H1e ].
  pose proof (Zdigits2_le mx 64 ltac:(lia) Hm) as Hd.
  destruct (shr_fexp prec emax mx ex lx) as [ mrs' e' ]. cbn [fst snd] in *.
  assert (He' : e' <= 40)
    by (unfold fexp, emin, prec, emax in H1e; lia).
  set (m1 := round_nearest_even (shr_m mrs') (loc_of_shr_record mrs')).
  assert (Hm1 : 0 <= m1 < 2 ^ 65).
  { pose proof (round_nearest_even_le (shr_m mrs') (loc_of_shr_record mrs')).
    pose proof (round_nearest_even_nonneg (shr_m mrs') (loc_of_shr_record mrs')
                  (proj1 H1)).
    subst m1. lia. }
  pose proof (shr_fexp_bounds m1 e' loc_Exact (proj1 Hm1)) as [ H2 H2e ].
  pose proof (Zdigits2_le m1 65 ltac:(lia) Hm1) as Hd1.
  destruct (shr_fexp prec emax m1 e' loc_Exact) as [ mrs'' e'' ]. cbn [fst snd] in *.
  assert (He'' : e'' <= 104)
    by (unfold fexp, emin, prec, emax in H2e; lia).
  destruct (shr_m mrs'') as [ | q | q ]; [ reflexivity | | lia ].
  destruct (Z.leb_spec e'' (emax - prec)); [ reflexivity | ].
  unfold emax, prec in *. lia.
Qed.

Lemma dt_of_finite (interval : Z) :
  CInt.is_ulong interval -> is_finite (Path.dt_of interval) = true.
Proof.
  intros Hi. unfold Path.dt_of.
  assert (Hr : - 2 ^ 32 < interval < 2 ^ 32)
    by (unfold CInt.is_ulong, CInt.ULONG_MOD in Hi; lia).
  pose proof (of_Z_small_mantissa interval Hr) as Hb.
  destruct (of_Z interval) as [ s | s | | s m e ]; try contradiction.
  - reflexivity.
  - unfold mul, SFmul, lit_1e_6.
    apply binary_round_aux_finite_wide; [ | lia ].
    rewrite Pos2Z.inj_mul. split; [ lia | ].
    apply Z.le_lt_trans with (8796093 * 2 ^ 32); [ nia | reflexivity ].
Qed.

(** Integers of magnitude below [2^24], of either sign, survive the
    conversion to [float] and back. *)
Lemma binary_round_small (s : bool) (m : positive) :
  Zpos m < 2 ^ 24 ->
  binary_round prec emax s m 0 =
  match Zpos (digits2_pos m) - 24 with
  | Zneg k => S754_finite s (Pos.iter xO m k) (Zneg k)
  | _ => S754_finite s m 0
  end.
Proof.
  intros Hm. pose proof (digits2_pos_bounds m) as Hd.
  assert (Hd24 : Zpos (digits2_pos m) <= 24).
  { destruct (Z.le_gt_cases (Zpos (digits2_pos m)) 24) as [ H | H ]; [ exact H | ].
    assert (2 ^ 24 <= 2 ^ (Zpos (digits2_pos m) - 1)) by (apply Z.pow_le_mono_r; lia).
    lia. }
  unfold binary_round, shl_align.
  assert (Hf : fexp prec emax (Zpos (digits2_pos m) + 0) = Zpos (digits2_pos m) - 24).
  { unfold fexp, emin, prec, emax. lia. }
  rewrite Hf. rewrite Z.sub_0_r.
  destruct (Zpos (digits2_pos m) - 24) as [ | k | k ] eqn:E; [ | lia | ].
  - unfold binary_round_aux, shr_fexp. cbn [Zdigits2 shr_record_of_loc].
    assert (Hf0 : fexp prec emax (Zpos (digits2_pos m) + 0) - 0 = 0)
      by (unfold fexp, emin, prec, emax; lia).
    rewrite Hf0. cbn [shr shr_m loc_of_shr_record round_nearest_even Zdigits2 shr_record_of_loc].
    rewrite Hf0. cbn [shr shr_m]. reflexivity.
  - unfold binary_round_aux, shr_fexp. cbn [Zdigits2 shr_record_of_loc].
    assert (Hfk : fexp prec emax (Zpos (digits2_pos (Pos.iter xO m k)) + Zneg k) - Zneg k = 0).
    { rewrite iter_xO_digits. unfold fexp, emin, prec, emax. lia. }
    rewrite Hfk. cbn [shr shr_m loc_of_shr_record round_nearest_even Zdigits2 shr_record_of_loc].
    rewrite Hfk. cbn [shr shr_m].
    replace (Zneg k <=? emax - prec) with true; [ reflexivity | ].
    symmetry. apply Z.leb_le. unfold emax, prec. lia.
Qed.

Lemma to_long_of_Z_signed (v : Z) :
  - 2 ^ 24 < v < 2 ^ 24 -> to_long (of_Z v) = Some v.
Proof.
  intros Hv. destruct v as [ | m | m ]; [ reflexivity | apply to_long_of_Z; lia | ].
  unfold of_Z, binary_normalize. rewrite binary_round_small by lia.
  destruct (Zpos (digits2_pos m) - 24) as [ | k | k ] eqn:E.
  - unfold to_long. cbn [Z.leb Z.compare]. rewrite Z.shiftl_0_r.
    unfold CInt.LONG_MIN, CInt.LONG_MAX.
    destruct (Z.leb_spec (- 2 ^ 31) (- Zpos m)); [ | lia ].
    destruct (Z.leb_spec (- Zpos m) (2 ^ 31 - 1)); [ reflexivity | lia ].
  - pose proof (digits2_pos_bounds m).
    assert (2 ^ 24 <= 2 ^ (Zpos (digits2_pos m) - 1)) by (apply Z.pow_le_mono_r; lia).
    lia.
  - unfold to_long. cbn [Z.leb Z.compare Z.opp].
    change (Zpos k) with (- Zneg k).
    change (- - Zneg k) with (Zpos k).
    rewrite iter_xO_value, Z.shiftr_div_pow2, Z.div_mul by lia.
    unfold CInt.LONG_MIN, CInt.LONG_MAX.
    destruct (Z.leb_spec (- 2 ^ 31) (- Zpos m)); [ | lia ].
    destruct (Z.leb_spec (- Zpos m) (2 ^ 31 - 1)); [ reflexivity | lia ].
Qed.

(** The cast to [long] is monotone on canonical numbers: a number
    whose magnitude is at most [y] casts to an integer whose magnitude
    is at most the cast of [y]. *)
Lemma canonical_facts (m : positive) (e : Z) :
  canonical_mantissa prec emax m e = true ->
  -149 <= e /\ Zpos (digits2_pos m) <= 24 /\
  (-149 < e -> Zpos (digits2_pos m) = 24).
Proof.
  unfold canonical_mantissa, fexp, emin, prec, emax. intros H.
  apply Z.eqb_eq in H. lia.
Qed.

Lemma trunc_scaled (m : positive) (e : Z) :
  -149 <= e ->
  (if 0 <=? e then Z.shiftl (Zpos m) e else Z.shiftr (Zpos m) (- e))
  = (Zpos m * 2 ^ (e + 149)) / 2 ^ 149.
Proof.
  intros He. destruct (Z.leb_spec 0 e).
  - rewrite Z.shiftl_mul_pow2, Z.pow_add_r, Z.mul_assoc, Z.div_mul by lia.
    reflexivity.
  - rewrite Z.shiftr_div_pow2 by lia.
    replace (2 ^ 149) with (2 ^ (- e) * 2 ^ (e + 149)).
    + rewrite Z.div_mul_cancel_r; [ reflexivity | | ];
        apply Z.pow_nonzero; lia.
    + rewrite <- Z.pow_add_r by lia. f_equal. lia.
Qed.

Lemma scaled_le (m1 m2 : positive) (e1 e2 : Z) :
  canonical_mantissa prec emax m1 e1 = true ->
  canonical_mantissa prec emax m2 e2 = true ->
  e1 < e2 \/ (e1 = e2 /\ (m1 <= m2)%positive) ->
  Zpos m1 * 2 ^ (e1 + 149) <= Zpos m2 * 2 ^ (e2 + 149).
Proof.
  intros C1 C2 Hlex.
  destruct (canonical_facts _ _ C1) as (E1 & D1 & _).
  destruct (canonical_facts _ _ C2) as (E2 & D2 & N2).
  destruct Hlex as [ Hlt | [ -> Hle ] ].
  - pose proof (digits2_pos_bounds m1) as B1.
    pose proof (digits2_pos_bounds m2) as B2.
    rewrite (N2 ltac:(lia)) in B2.
    assert (H1 : Zpos m1 < 2 ^ 24).
    { apply Z.lt_le_trans with (2 ^ Zpos (digits2_pos m1)); [ apply B1 | ].
      apply Z.pow_le_mono_r; lia. }
    assert (Hp1 : 0 < 2 ^ (e1 + 149)) by (apply Z.pow_pos_nonneg; lia).
    assert (Hp : 2 * 2 ^ (e1 + 149) <= 2 ^ (e2 + 149)).
    { rewrite <- Z.pow_succ_r by lia. apply Z.pow_le_mono_r; lia. }
    change (2 ^ (24 - 1)) with 8388608 in B2. change (2 ^ 24) with 16777216 in H1.
    nia.
  - apply Z.mul_le_mono_nonneg_r; [ apply Z.pow_nonneg; lia | lia ].
Qed.

Lemma leb_finite_lex (m1 m2 : positive) (e1 e2 : Z) :
  leb (S754_finite false m1 e1) (S754_finite false m2 e2) = true ->
  e1 < e2 \/ (e1 = e2 /\ (m1 <= m2)%positive).
Proof.
  unfold leb, SFleb, SFcompare.
  change (Pos.compare_cont Eq m1 m2) with (Pos.compare m1 m2).
  destruct (Z.compare_spec e1 e2); [ | now left | discriminate ].
  destruct (Pos.compare_spec m1 m2); intros; try discriminate; right; split; lia.
Qed.

Lemma cast_within_bound (x y : float) (M : Z) :
  valid x = true -> valid y = true ->
  leb (fabs x) y = true -> to_long y = Some M ->
  exists v, to_long x = Some v /\ - M <= v <= M.
Proof.
  intros Vx Vy Hle Hy.
  assert (HM : 0 <= M /\ M <= CInt.LONG_MAX).
  { destruct y as [ sy | | | sy my ey ]; try discriminate Hy.
    - injection Hy as <-. unfold CInt.LONG_MAX. lia.
    - unfold to_long in Hy.
      destruct x as [ | [] | | sx mx ex ]; destruct sy; try discriminate Hle.
      + set (a := if 0 <=? ey then _ else _) in *.
        assert (0 <= a).
        { subst a. destruct (0 <=? ey).
          - apply Z.shiftl_nonneg; lia.
          - apply Z.shiftr_nonneg; lia. }
        destruct ((CInt.LONG_MIN <=? a) && (a <=? CInt.LONG_MAX)) eqn:Hr;
          [ | discriminate Hy ].
        injection Hy as <-. apply andb_prop in Hr. destruct Hr as [ _ Hr ].
        apply Z.leb_le in Hr. lia.
      + set (a := if 0 <=? ey then _ else _) in *.
        assert (0 <= a).
        { subst a. destruct (0 <=? ey).
          - apply Z.shiftl_nonneg; lia.
          - apply Z.shiftr_nonneg; lia. }
        destruct ((CInt.LONG_MIN <=? a) && (a <=? CInt.LONG_MAX)) eqn:Hr;
          [ | discriminate Hy ].
        injection Hy as <-. apply andb_prop in Hr. destruct Hr as [ _ Hr ].
        apply Z.leb_le in Hr. lia. }
  destruct x as [ sx | sx | | sx mx ex ].
  - exists 0. split; [ reflexivity | lia ].
  - destruct y as [ | [] | | [] ]; try discriminate Hle; discriminate Hy.
  - discriminate Hle.
  - destruct y as [ sy | [] | | [] my ey ]; try discriminate Hle; try discriminate Hy.
    cbn [fabs SFabs] in Hle. apply leb_finite_lex in Hle.
    unfold valid, valid_binary, bounded in Vx, Vy.
    apply andb_prop in Vx, Vy. destruct Vx as [ Cx _ ], Vy as [ Cy _ ].
    pose proof (scaled_le _ _ _ _ Cx Cy Hle) as Hs.
    destruct (canonical_facts _ _ Cx) as (Ex & _).
    destruct (canonical_facts _ _ Cy) as (Ey & _).
    unfold to_long in *. cbn [negb] in *.
    rewrite trunc_scaled in * by assumption.
    set (ax := Zpos mx * 2 ^ (ex + 149) / 2 ^ 149) in *.
    set (ay := Zpos my * 2 ^ (ey + 149) / 2 ^ 149) in *.
    assert (Hax : 0 <= ax <= ay).
    { subst ax ay. split.
      - apply Z.div_pos; [ | reflexivity ].
        apply Z.mul_nonneg_nonneg; [ lia | apply Z.pow_nonneg; lia ].
      - apply Z.div_le_mono; [ reflexivity | exact Hs ]. }
    destruct ((CInt.LONG_MIN <=? ay) && (ay <=? CInt.LONG_MAX)) eqn:Hr;
      [ | discriminate Hy ].
    injection Hy as <-.
    unfold CInt.LONG_MIN, CInt.LONG_MAX in *.
    exists (if sx then - ax else ax). split; [ | destruct sx; lia ].
    destruct sx.
    + destruct (Z.leb_spec (- 2 ^ 31) (- ax)); [ | lia ].
      destruct (Z.leb_spec (- ax) (2 ^ 31 - 1)); [ reflexivity | lia ].
    + destruct (Z.leb_spec (- 2 ^ 31) ax); [ | lia ].
      destruct (Z.leb_spec ax (2 ^ 31 - 1)); [ reflexivity | lia ].
Qed.

Lemma constrain_valid (x lo hi : float) :
  valid x = true -> valid lo = true -> valid hi = true ->
  valid (constrain x lo hi) = true.
Proof.
  intros Hx Hlo Hhi. unfold constrain.
  destruct (ltb x lo); [ exact Hlo | ]. now destruct (gtb x hi).
Qed.

Lemma opp_valid (x : float) : valid (opp x) = valid x.
Proof. now destruct x. Qed.

Lemma constrain_zero (z m : float) :
  is_zero z = true -> leb zero m = true -> constrain z (opp m) m = z.
Proof.
  destruct z as [ [] | | | ]; try discriminate; intros _;
    destruct m as [ [] | [] | | [] mm em ]; try discriminate; reflexivity.
Qed.

Lemma add_zeros (x y : float) :
  is_zero x = true -> is_zero y = true -> is_zero (add x y) = true.
Proof.
  destruct x as [ [] | | | ]; try discriminate;
    destruct y as [ [] | | | ]; try discriminate; reflexivity.
Qed.

Lemma sub_zeros (x y : float) :
  is_zero x = true -> is_zero y = true -> is_zero (sub x y) = true.
Proof.
  destruct x as [ [] | | | ]; try discriminate;
    destruct y as [ [] | | | ]; try discriminate; reflexivity.
Qed.

Lemma mul_zero_l (z x : float) :
  is_zero z = true -> is_finite x = true -> is_zero (mul z x) = true.
Proof.
  destruct z; try discriminate; destruct x; try discriminate; reflexivity.
Qed.

Lemma sub_same_value (x y : float) :
  is_finite x = true -> same_value y x -> is_zero (sub x y) = true.
Proof.
  intros Hx [ -> | [ Hy Hz ] ].
  - now rewrite sub_diag.
  - now apply sub_zeros.
Qed.

Lemma same_value_trans (x y z : float) :
  same_value x y -> same_value y z -> same_value x z.
Proof.
  unfold same_value. intros [ -> | [ H1 H2 ] ] [ -> | [ H3 H4 ] ]; auto.
Qed.

Lemma add_infinity_finite (s : bool) (y : float) :
  is_finite y = true -> add (S754_infinity s) y = S754_infinity s.
Proof. destruct y; try discriminate; reflexivity. Qed.

End FloatFacts.

(** * Properties of the path generator *)

Section PathFacts.
Import F32 Arduino Path.

Ltac poll_branches :=
  unfold pollForInterval; cbv zeta;
  repeat match goal with
  | |- context [if ?c then _ else _] => destruct c
  end; reflexivity.

Lemma poll_q (p : state) (interval : Z) :
  q (pollForInterval p interval) = add (q p) (mul (qd p) (dt_of interval)).
Proof. poll_branches. Qed.

Lemma poll_qd (p : state) (interval : Z) :
  qd (pollForInterval p interval)
  = constrain (integrated_qd p interval) (opp (qd_max p)) (qd_max p).
Proof. poll_branches. Qed.

Lemma poll_t (p : state) (interval : Z) :
  t (pollForInterval p interval) = add (t p) (dt_of interval).
Proof. poll_branches. Qed.

Lemma poll_frame (p : state) (interval : Z) :
  let p' := pollForInterval p interval in
  qdd p' = qdd p /\ q_d_d p' = q_d_d p /\ speed p' = speed p /\
  k p' = k p /\ b p' = b p /\ qd_max p' = qd_max p /\ qdd_max p' = qdd_max p.
Proof.
  cbv zeta. unfold pollForInterval; cbv zeta.
  repeat match goal with
  | |- context [if ?c then _ else _] => destruct c
  end; repeat split.
Qed.

(** The reference-advance step of the poll, on [q_d] and [qd_d]. *)
Lemma poll_reference (p : state) (interval : Z) :
  let err := sub (q_d_d p) (q_d p) in
  let p' := pollForInterval p interval in
  q_d p' =
    (if eqb err zero then q_d p
     else if isinf (speed p) then q_d_d p
     else if gtb err zero
          then add (q_d p) (min (mul (speed p) (dt_of interval)) err)
          else sub (q_d p) (min (mul (speed p) (dt_of interval)) (opp err))) /\
  qd_d p' =
    (if eqb err zero then zero
     else if isinf (speed p) then zero
     else if gtb err zero then speed p else opp (speed p)).
Proof.
  cbv zeta. unfold pollForInterval; cbv zeta. cbn [q_d_d q_d speed set_q set_qd set_t].
  destruct (eqb (sub (q_d_d p) (q_d p)) zero); [ now split | ].
  destruct (isinf (speed p)); [ now split | ].
  destruct (gtb (sub (q_d_d p) (q_d p)) zero); now split.
Qed.

(** C1, as stated, fails: after the commands above (default gains and
    limits, integer arguments only) one more poll returns with a NaN
    velocity, for which [|qd| <= qd_max] is false. *)
Lemma velocity_bound_fails_on_nan :
  let p := run nan_reference_commands in
  leb zero (qd_max p) = true /\
  leb (fabs (qd p)) (qd_max p) = true /\
  qd (pollForInterval p 1000) = S754_nan /\
  leb (fabs (qd (pollForInterval p 1000))) (qd_max (pollForInterval p 1000))
    = false.
Proof. vm_compute. repeat split. Qed.

(** C1, amended.  With [qd_max >= 0], the velocity a poll returns with
    is NaN exactly when the integrated velocity [qd + qdd * dt] is NaN,
    and in every other case [|qd| <= qd_max] holds on return. *)
Theorem velocity_bounded_unless_nan (p : state) (interval : Z) :
  leb zero (qd_max p) = true ->
  let p' := pollForInterval p interval in
  qd_max p' = qd_max p /\
  is_nan (qd p') = is_nan (integrated_qd p interval) /\
  (is_nan (integrated_qd p interval) = false ->
   leb (fabs (qd p')) (qd_max p') = true).
Proof.
  intros Hmax p'. subst p'.
  assert (Hn : is_nan (qd_max p) = false)
    by (destruct (qd_max p); try reflexivity; discriminate Hmax).
  assert (Hno : is_nan (opp (qd_max p)) = false)
    by (destruct (qd_max p); try reflexivity; discriminate Hmax).
  destruct (poll_frame p interval) as (_ & _ & _ & _ & _ & Hq & _).
  rewrite Hq, poll_qd. split; [ reflexivity | split ].
  - now apply constrain_is_nan.
  - intros Hi. now apply constrain_within.
Qed.

Lemma velocity_bounded_unless_nan_witness :
  let p := run [SetSpeed 500; SetTarget 1000; PollForInterval 1000] in
  leb zero (qd_max p) = true /\
  is_nan (integrated_qd p 1000) = false /\
  leb (fabs (qd (pollForInterval p 1000))) (qd_max (pollForInterval p 1000))
    = true.
Proof.
  cbv zeta. split; [ reflexivity | split; [ reflexivity | ] ].
  apply (velocity_bounded_unless_nan
           (run [SetSpeed 500; SetTarget 1000; PollForInterval 1000]) 1000);
    reflexivity.
Defined.

(** C3.  The poll integrates the acceleration
    [constrain(k*(q_d - q) + b*(qd_d - qd), -qdd_max, qdd_max)] computed
    from the state before the call, over [dt = 1e-6 * interval]; the
    position is advanced with the velocity of before the call, the
    velocity with that acceleration (and is then clamped), the time by
    [dt]; gains, limits, speed, target and the instance variable [qdd]
    are left alone. *)
Theorem forward_euler_step (p : state) (interval : Z) :
  let dt := mul lit_1e_6 (of_Z interval) in
  let acc := constrain (add (mul (k p) (sub (q_d p) (q p)))
                            (mul (b p) (sub (qd_d p) (qd p))))
                       (opp (qdd_max p)) (qdd_max p) in
  let p' := pollForInterval p interval in
  q p' = add (q p) (mul (qd p) dt) /\
  qd p' = constrain (add (qd p) (mul acc dt)) (opp (qd_max p)) (qd_max p) /\
  t p' = add (t p) dt /\
  qdd p' = qdd p /\ q_d_d p' = q_d_d p /\ speed p' = speed p /\
  k p' = k p /\ b p' = b p /\ qd_max p' = qd_max p /\ qdd_max p' = qdd_max p.
Proof.
  cbv zeta.
  split; [ apply poll_q | ]. split; [ apply poll_qd | ].
  split; [ apply poll_t | ]. apply poll_frame.
Qed.

(** The acceleration that is integrated is within the limit, unless it
    is NaN. *)
Lemma clamped_qdd_bounded (p : state) :
  leb zero (qdd_max p) = true -> is_nan (raw_qdd p) = false ->
  leb (fabs (clamped_qdd p)) (qdd_max p) = true.
Proof. intros H1 H2. now apply constrain_within. Qed.

(** C4.  The reference-advance step of a poll, by cases on
    [err = q_d_d - q_d]: when [err == 0] the reference velocity becomes
    0 and the reference position stays; else, when [speed] is
    infinite, the reference position becomes the target and the
    reference velocity 0; else the reference position moves toward the
    target by [min(speed * dt, |err|)] and the reference velocity
    becomes [+speed] going forward and [-speed] going backward, also
    when the step is cut to [|err|]. *)
Theorem reference_advance (p : state) (interval : Z) :
  let dt := dt_of interval in
  let err := sub (q_d_d p) (q_d p) in
  let p' := pollForInterval p interval in
  (eqb err zero = true -> qd_d p' = zero /\ q_d p' = q_d p) /\
  (eqb err zero = false -> isinf (speed p) = true ->
   q_d p' = q_d_d p /\ qd_d p' = zero) /\
  (eqb err zero = false -> isinf (speed p) = false -> gtb err zero = true ->
   q_d p' = add (q_d p) (min (mul (speed p) dt) (fabs err)) /\
   qd_d p' = speed p) /\
  (eqb err zero = false -> isinf (speed p) = false -> gtb err zero = false ->
   q_d p' = sub (q_d p) (min (mul (speed p) dt) (fabs err)) /\
   qd_d p' = opp (speed p)) /\
  q_d_d p' = q_d_d p.
Proof.
  cbv zeta. destruct (poll_reference p interval) as [ Hq Hv ].
  cbv zeta in Hq, Hv. rewrite Hq, Hv.
  split; [ intros H1; rewrite H1; now split | ].
  split; [ intros H1 H2; rewrite H1, H2; now split | ].
  split; [ intros H1 H2 H3;
           rewrite H1, H2, H3, (fabs_positive _ H3); now split | ].
  split; [ intros H1 H2 H3;
           rewrite H1, H2, H3, <- (opp_negative _ H1 H3); now split | ].
  apply poll_frame.
Qed.

Lemma reference_advance_witness :
  let p := run [SetSpeed 500; SetTarget 1000] in
  let err := sub (q_d_d p) (q_d p) in
  eqb err zero = false /\ isinf (speed p) = false /\ gtb err zero = true /\
  q_d (pollForInterval p 1000)
    = add (q_d p) (min (mul (speed p) (dt_of 1000)) (fabs err)) /\
  qd_d (pollForInterval p 1000) = of_Z 500.
Proof.
  cbv zeta. do 3 (split; [ reflexivity | ]).
  apply (proj1 (proj2 (proj2
           (reference_advance (run [SetSpeed 500; SetTarget 1000]) 1000))));
    reflexivity.
Defined.

(** C7, as stated, fails: [setVelocity] given a non-positive argument
    stores its magnitude, not +infinity; [setVelocity(0)] stores speed
    0 and [setVelocity(-5)] stores speed 5. *)
Lemma setVelocity_nonpositive_not_infinite :
  speed (setVelocity Path 0) = zero /\
  speed (setVelocity Path (-5)) = of_Z 5 /\
  speed (setVelocity Path 0) <> INFINITY /\
  speed (setVelocity Path (-5)) <> INFINITY.
Proof. repeat split; discriminate. Qed.

(** C7, amended.  [setSpeed(v)] stores +infinity when [v <= 0] and [v]
    converted to float when [v > 0], which is [v] itself below [2^24];
    [setVelocity(v)], for [v] above [LONG_MIN], stores [|v|] converted
    to float whatever the sign of [v], a finite value and never
    +infinity; after either call [speed >= 0]. *)
Theorem speed_setters (p : state) (v : Z) :
  (v <= 0 -> speed (setSpeed p v) = INFINITY) /\
  (0 < v -> speed (setSpeed p v) = of_Z v) /\
  (0 < v < 2 ^ 24 -> to_long (speed (setSpeed p v)) = Some v) /\
  leb zero (speed (setSpeed p v)) = true /\
  (CInt.LONG_MIN < v <= CInt.LONG_MAX ->
   speed (setVelocity p v) = of_Z (Z.abs v) /\
   is_finite (speed (setVelocity p v)) = true /\
   leb zero (speed (setVelocity p v)) = true).
Proof.
  assert (Hs : forall x, speed (setSpeed p x)
                         = if x <=? 0 then INFINITY else of_Z x)
    by reflexivity.
  assert (Hv : forall x, speed (setVelocity p x) = of_Z (abs x)).
  { intros x. unfold setVelocity. now destruct (0 <=? x). }
  split; [ | split; [ | split; [ | split ] ] ].
  - intros H. rewrite Hs. destruct (Z.leb_spec v 0); [ reflexivity | lia ].
  - intros H. rewrite Hs. destruct (Z.leb_spec v 0); [ lia | reflexivity ].
  - intros H. rewrite Hs. destruct (Z.leb_spec v 0); [ lia | ].
    apply to_long_of_Z. lia.
  - rewrite Hs. destruct (Z.leb_spec v 0); [ reflexivity | ].
    apply of_Z_nonneg. lia.
  - intros H. rewrite Hv, abs_spec by assumption.
    unfold CInt.LONG_MIN, CInt.LONG_MAX in H.
    split; [ reflexivity | split ].
    + apply of_Z_finite. lia.
    + apply of_Z_nonneg. lia.
Qed.

Lemma speed_setters_witness :
  CInt.LONG_MIN < -300 <= CInt.LONG_MAX /\
  speed (setVelocity Path (-300)) = of_Z 300 /\
  is_finite (speed (setVelocity Path (-300))) = true /\
  leb zero (speed (setVelocity Path (-300))) = true.
Proof.
  assert (H : CInt.LONG_MIN < -300 <= CInt.LONG_MAX)
    by (unfold CInt.LONG_MIN, CInt.LONG_MAX; lia).
  split; [ exact H | ].
  exact (proj2 (proj2 (proj2 (proj2 (speed_setters Path (-300))))) H).
Defined.

(** Beyond [2^24] the conversion in [setSpeed] rounds. *)
Example setSpeed_rounds :
  to_long (speed (setSpeed Path 16777217)) = Some 16777216.
Proof. reflexivity. Qed.

(** At [LONG_MIN] the negation in [abs] overflows; with two's-complement
    wrap-around [setVelocity] then stores a negative speed. *)
Example setVelocity_LONG_MIN :
  leb zero (speed (setVelocity Path CInt.LONG_MIN)) = false.
Proof. reflexivity. Qed.

(** C10, as stated, fails: in the state reached by the commands above
    [|qd| <= qd_max] holds, yet a poll of zero microseconds replaces
    the velocity by NaN. *)
Lemma zero_poll_changes_velocity :
  let p := run nan_reference_commands in
  leb (fabs (qd p)) (qd_max p) = true /\
  is_nan (qd p) = false /\
  qd (pollForInterval p 0) = S754_nan /\
  eqb (qd (pollForInterval p 0)) (qd p) = false.
Proof. vm_compute. repeat split. Qed.

(** The same happens without any NaN in the state before the call when
    the acceleration limit is infinite: the clamped acceleration is
    infinite and its product with [dt = 0] is NaN. *)
Example zero_poll_unlimited_acceleration :
  let p := run [SetLimits (of_Z 2400) INFINITY; SetVelocity 1; SetSpeed 0;
                PollForInterval 1000] in
  is_nan (q p) = false /\ is_nan (qd p) = false /\ is_nan (q_d p) = false /\
  is_nan (qd_d p) = false /\ is_nan (t p) = false /\
  leb (fabs (qd p)) (qd_max p) = true /\
  qd (pollForInterval p 0) = S754_nan.
Proof. vm_compute. repeat split. Qed.

(** With a finite acceleration limit the clamped acceleration is finite
    unless the commanded acceleration is NaN. *)
Lemma clamped_qdd_finite (p : state) :
  is_finite (qdd_max p) = true -> is_nan (raw_qdd p) = false ->
  is_finite (clamped_qdd p) = true.
Proof. intros H1 H2. now apply constrain_finite. Qed.

(** C10, amended.  A poll of zero microseconds leaves [q], [qd] and [t]
    the same numbers provided that [q] and [t] are not NaN, that [qd]
    and the clamped acceleration are finite, and that [|qd| <= qd_max]
    before the call.  It still runs the reference-advance step: with
    [q_d_d - q_d] different from 0 and an infinite speed, [q_d] becomes
    [q_d_d] and [qd_d] becomes 0; with a finite speed, [qd_d] becomes
    [+speed] for a positive and [-speed] for a negative error while
    [q_d] stays the same number. *)
Theorem zero_interval_poll (p : state) :
  let err := sub (q_d_d p) (q_d p) in
  let p' := pollForInterval p 0 in
  (is_nan (q p) = false -> is_nan (t p) = false ->
   is_finite (qd p) = true -> is_finite (clamped_qdd p) = true ->
   leb (fabs (qd p)) (qd_max p) = true ->
   (same_value (q p') (q p) /\ eqb (q p') (q p) = true) /\
   (same_value (qd p') (qd p) /\ eqb (qd p') (qd p) = true) /\
   (same_value (t p') (t p) /\ eqb (t p') (t p) = true)) /\
  (eqb err zero = false -> isinf (speed p) = true ->
   q_d p' = q_d_d p /\ qd_d p' = zero) /\
  (is_finite (speed p) = true -> gtb err zero = true ->
   qd_d p' = speed p /\ same_value (q_d p') (q_d p)) /\
  (is_finite (speed p) = true -> ltb err zero = true ->
   qd_d p' = opp (speed p) /\ same_value (q_d p') (q_d p)).
Proof.
  cbv zeta.
  destruct (poll_reference p 0) as [ Hq Hv ]. cbv zeta in Hq, Hv.
  rewrite dt_of_zero in Hq.
  split; [ | split; [ | split ] ].
  - intros Hnq Hnt Hfq Hfa Hle.
    rewrite poll_q, poll_qd, poll_t. unfold integrated_qd.
    rewrite dt_of_zero.
    assert (Sq : same_value (add (q p) (mul (qd p) zero)) (q p))
      by (apply add_zero_r; [ now apply mul_zero_r | assumption ]).
    assert (St : same_value (add (t p) zero) (t p))
      by (now apply add_zero_r).
    assert (Sv : same_value (add (qd p) (mul (clamped_qdd p) zero)) (qd p)).
    { apply add_zero_r; [ now apply mul_zero_r | ]. now apply finite_not_nan. }
    rewrite constrain_inside
      by (now rewrite (same_value_fabs _ _ Sv)).
    repeat split; try assumption; apply same_value_eqb; try assumption.
    now apply finite_not_nan.
  - intros H1 H2. rewrite Hq, Hv, H1, H2. now split.
  - intros Hs Hg.
    pose proof (gtb_not_eqb _ Hg) as He.
    pose proof (finite_not_inf _ Hs) as Hi.
    rewrite Hq, Hv, He, Hi, Hg. split; [ reflexivity | ].
    assert (Hz : is_zero (mul (speed p) zero) = true)
      by (now apply mul_zero_r).
    rewrite (min_zero_positive _ _ Hz Hg).
    apply add_zero_r; [ exact Hz | ].
    apply (sub_not_nan_r (q_d_d p)). now apply gtb_not_nan.
  - intros Hs Hl.
    destruct (ltb_negative _ Hl) as [ He Hg ].
    pose proof (finite_not_inf _ Hs) as Hi.
    rewrite Hq, Hv, He, Hi, Hg. split; [ reflexivity | ].
    assert (Hz : is_zero (mul (speed p) zero) = true)
      by (now apply mul_zero_r).
    rewrite (min_zero_positive _ _ Hz (opp_of_negative _ Hl)).
    apply sub_zero_r; [ exact Hz | ].
    apply (sub_not_nan_r (q_d_d p)). now apply ltb_not_nan.
Qed.

Lemma zero_interval_poll_witness :
  let p := run [SetSpeed 500; SetTarget 1000; PollForInterval 1000;
                PollForInterval 1000] in
  is_finite (speed p) = true /\
  gtb (sub (q_d_d p) (q_d p)) zero = true /\
  qd_d (pollForInterval p 0) = of_Z 500 /\
  same_value (q_d (pollForInterval p 0)) (q_d p) /\
  same_value (qd (pollForInterval p 0)) (qd p).
Proof.
  cbv zeta.
  pose proof (zero_interval_poll
                (run [SetSpeed 500; SetTarget 1000; PollForInterval 1000;
                      PollForInterval 1000])) as H.
  cbv zeta in H. destruct H as (H1 & _ & H3 & _).
  split; [ reflexivity | split; [ reflexivity | ] ].
  split; [ apply H3; reflexivity | ].
  split; [ apply H3; reflexivity | ].
  apply H1; reflexivity.
Defined.

(** ** Further properties of the path generator *)

(** X9.  The acceleration a poll integrates is NaN exactly when the
    commanded acceleration [k*(q_d - q) + b*(qd_d - qd)] is NaN; in all
    other cases, with [qdd_max >= 0], its magnitude is at most
    [qdd_max]. *)
Theorem acceleration_bounded (p : state) :
  leb zero (qdd_max p) = true ->
  is_nan (clamped_qdd p) = is_nan (raw_qdd p) /\
  (is_nan (raw_qdd p) = false ->
   leb (fabs (clamped_qdd p)) (qdd_max p) = true).
Proof.
  intros Hmax.
  assert (Hn : is_nan (qdd_max p) = false)
    by (destruct (qdd_max p); try reflexivity; discriminate Hmax).
  assert (Hno : is_nan (opp (qdd_max p)) = false)
    by (destruct (qdd_max p); try reflexivity; discriminate Hmax).
  split.
  - now apply constrain_is_nan.
  - intros Hr. now apply constrain_within.
Qed.

Lemma acceleration_bounded_witness :
  let p := calls Path [SetLimits (of_Z 2400) (of_Z 100); SetTarget 1000000;
                       PollForInterval 1000] in
  leb zero (qdd_max p) = true /\
  is_nan (raw_qdd p) = false /\
  leb (fabs (clamped_qdd p)) (qdd_max p) = true.
Proof.
  cbv zeta. split; [ reflexivity | split; [ reflexivity | ] ].
  apply (acceleration_bounded
           (calls Path [SetLimits (of_Z 2400) (of_Z 100); SetTarget 1000000;
                        PollForInterval 1000])); reflexivity.
Defined.

Lemma poll_qd_nan (p : state) (interval : Z) :
  is_nan (qd p) = true -> is_nan (qd (pollForInterval p interval)) = true.
Proof.
  intros H. rewrite poll_qd. unfold integrated_qd.
  rewrite (is_nan_eq _ H), add_nan_l, constrain_nan. reflexivity.
Qed.

Lemma poll_q_nan (p : state) (interval : Z) :
  is_nan (qd p) = true -> is_nan (q (pollForInterval p interval)) = true.
Proof.
  intros H. rewrite poll_q, (is_nan_eq _ H), mul_nan_l, add_nan_r. reflexivity.
Qed.

Lemma poll_q_stays_nan (p : state) (interval : Z) :
  is_nan (q p) = true -> is_nan (q (pollForInterval p interval)) = true.
Proof.
  intros H. rewrite poll_q, (is_nan_eq _ H), add_nan_l. reflexivity.
Qed.

Lemma call_keeps_q_qd (o : op) (p : state) :
  is_poll o = false -> q (call p o) = q p /\ qd (call p o) = qd p.
Proof.
  destruct o; try discriminate; intros _; cbn [call]; try (now split).
  unfold setVelocity. now destruct (0 <=? newspeed).
Qed.

(** X10.  A NaN velocity is permanent: once [qd] is NaN, no sequence of
    calls makes it a number again, [currentVelocity] has no defined
    result, and after the first poll of the sequence the position [q] is
    NaN as well. *)
Theorem nan_velocity_is_permanent (ops : list op) (p : state) :
  is_nan (qd p) = true ->
  is_nan (qd (calls p ops)) = true /\
  currentVelocity (calls p ops) = None /\
  (existsb is_poll ops = true ->
   is_nan (q (calls p ops)) = true /\ currentPosition (calls p ops) = None).
Proof.
  intros Hqd.
  assert (Hinv : forall ops p,
             is_nan (qd p) = true ->
             is_nan (qd (calls p ops)) = true /\
             (is_nan (q p) = true \/ existsb is_poll ops = true ->
              is_nan (q (calls p ops)) = true)).
  { clear. induction ops as [ | o rest IH ]; intros p Hqd.
    - cbn. split; [ exact Hqd | ]. intros [ H | H ]; [ exact H | discriminate H ].
    - unfold calls in *. cbn [fold_left existsb].
      destruct (is_poll o) eqn:Ho.
      + destruct o; try discriminate Ho. cbn [call].
        destruct (IH (pollForInterval p interval) (poll_qd_nan p interval Hqd))
          as [ I1 I2 ].
        split; [ exact I1 | ]. intros _. apply I2. left.
        now apply poll_q_nan.
      + destruct (call_keeps_q_qd o p Ho) as [ Kq Kv ].
        destruct (IH (call p o)) as [ I1 I2 ]; [ now rewrite Kv | ].
        split; [ exact I1 | ]. cbn [orb]. rewrite Kq in I2. exact I2. }
  destruct (Hinv ops p Hqd) as [ H1 H2 ].
  split; [ exact H1 | split ].
  - unfold currentVelocity. now rewrite (is_nan_eq _ H1).
  - intros Hp. assert (Hq : is_nan (q (calls p ops)) = true) by (apply H2; now right).
    split; [ exact Hq | ]. unfold currentPosition. now rewrite (is_nan_eq _ Hq).
Qed.

Lemma nan_velocity_is_permanent_witness :
  let p := pollForInterval (calls Path nan_reference_commands) 1000 in
  let ops := [SetTarget 0; SetSpeed 0; SetLimits (of_Z 2400) (of_Z 24000);
              PollForInterval 1000; SetVelocity 3; PollForInterval 500] in
  is_nan (qd p) = true /\
  is_nan (qd (calls p ops)) = true /\ currentVelocity (calls p ops) = None.
Proof.
  cbv zeta. split; [ reflexivity | ].
  pose proof (nan_velocity_is_permanent
                [SetTarget 0; SetSpeed 0; SetLimits (of_Z 2400) (of_Z 24000);
                 PollForInterval 1000; SetVelocity 3; PollForInterval 500]
                (pollForInterval (calls Path nan_reference_commands) 1000)
                eq_refl) as (H1 & H2 & _).
  split; [ exact H1 | exact H2 ].
Defined.

Lemma setVelocity_fields (p : state) (v : Z) :
  let p1 := setVelocity p v in
  speed p1 = of_Z (abs v) /\
  q_d_d p1 = (if 0 <=? v then INFINITY else opp INFINITY) /\
  q_d p1 = q_d p /\ qd_d p1 = qd_d p /\ q p1 = q p /\ qd p1 = qd p.
Proof. cbv zeta. unfold setVelocity. destruct (0 <=? v); repeat split. Qed.

(** X11.  Velocity mode: after [setVelocity(v)] (with [v] above
    [LONG_MIN]) a poll from a finite reference position leaves the
    target infinite, moves the reference by exactly [|v| * dt] in the
    direction of the sign of [v] and sets the reference velocity to
    [+|v|] or [-|v|]. *)
Theorem velocity_mode_advance (p : state) (v interval : Z) :
  CInt.LONG_MIN < v <= CInt.LONG_MAX -> CInt.is_ulong interval ->
  is_finite (q_d p) = true ->
  let p' := pollForInterval (setVelocity p v) interval in
  let step := mul (of_Z (Z.abs v)) (dt_of interval) in
  (0 <= v ->
   q_d_d p' = INFINITY /\ q_d p' = add (q_d p) step /\ qd_d p' = of_Z (Z.abs v)) /\
  (v < 0 ->
   q_d_d p' = opp INFINITY /\ q_d p' = sub (q_d p) step /\
   qd_d p' = opp (of_Z (Z.abs v))).
Proof.
  intros Hv Hi Hq. cbv zeta.
  destruct (setVelocity_fields p v) as (S1 & S2 & S3 & _). cbv zeta in *.
  rewrite abs_spec in S1 by assumption.
  destruct (poll_reference (setVelocity p v) interval) as [ Rq Rv ].
  destruct (poll_frame (setVelocity p v) interval) as (_ & Ft & _). cbv zeta in *.
  rewrite S1, S2, S3 in Rq, Rv. rewrite Ft, S2. rewrite Rq, Rv.
  assert (Hs : is_finite (of_Z (Z.abs v)) = true)
    by (apply of_Z_finite; unfold CInt.LONG_MIN, CInt.LONG_MAX in Hv; lia).
  assert (Hstep : is_nan (mul (of_Z (Z.abs v)) (dt_of interval)) = false)
    by (apply mul_finite_not_nan; [ exact Hs | now apply dt_of_finite ]).
  rewrite (finite_not_inf _ Hs).
  split; intros Hsign.
  - destruct (Z.leb_spec 0 v); [ | lia ].
    destruct (q_d p) as [ sq | | | sq mq eq ]; try discriminate Hq;
      cbn [sub SFsub INFINITY eqb SFeqb SFcompare zero gtb SFltb];
      rewrite (min_infinity_r _ Hstep); repeat split.
  - destruct (Z.leb_spec 0 v); [ lia | ].
    destruct (q_d p) as [ sq | | | sq mq eq ]; try discriminate Hq;
      cbn [sub SFsub INFINITY opp SFopp negb eqb SFeqb SFcompare zero gtb SFltb];
      change (S754_infinity false) with INFINITY;
      rewrite (min_infinity_r _ Hstep); repeat split.
Qed.

Lemma velocity_mode_advance_witness :
  CInt.LONG_MIN < -300 <= CInt.LONG_MAX /\ CInt.is_ulong 1000 /\
  is_finite (q_d Path) = true /\
  (-300 < 0 ->
   q_d_d (pollForInterval (setVelocity Path (-300)) 1000) = opp INFINITY /\
   q_d (pollForInterval (setVelocity Path (-300)) 1000)
     = sub (q_d Path) (mul (of_Z (Z.abs (-300))) (dt_of 1000)) /\
   qd_d (pollForInterval (setVelocity Path (-300)) 1000)
     = opp (of_Z (Z.abs (-300)))).
Proof.
  assert (H1 : CInt.LONG_MIN < -300 <= CInt.LONG_MAX)
    by (unfold CInt.LONG_MIN, CInt.LONG_MAX; lia).
  assert (H2 : CInt.is_ulong 1000)
    by (unfold CInt.is_ulong, CInt.ULONG_MOD; lia).
  split; [ exact H1 | split; [ exact H2 | split; [ reflexivity | ] ] ].
  exact (proj2 (velocity_mode_advance Path (-300) 1000 H1 H2 eq_refl)).
Defined.

Lemma poll_at_rest (p : state) (interval : Z) :
  q_d p = q_d_d p -> is_finite (q_d_d p) = true ->
  let p' := pollForInterval p interval in
  q_d p' = q_d_d p' /\ q_d_d p' = q_d_d p /\ qd_d p' = zero.
Proof.
  intros He Hf. cbv zeta.
  destruct (poll_reference p interval) as [ Rq Rv ].
  destruct (poll_frame p interval) as (_ & Ft & _). cbv zeta in *.
  rewrite He, (sub_diag _ Hf) in Rq, Rv.
  change (eqb zero zero) with true in Rq, Rv. cbv iota in Rq, Rv.
  rewrite Ft, Rq, Rv. repeat split.
Qed.

Lemma polls_at_rest (p : state) (i : Z) (rest : list Z) :
  q_d p = q_d_d p -> is_finite (q_d_d p) = true ->
  q_d (polls p (i :: rest)) = q_d_d p /\
  q_d_d (polls p (i :: rest)) = q_d_d p /\
  qd_d (polls p (i :: rest)) = zero.
Proof.
  intros He Hf. unfold polls. cbn [fold_left].
  destruct (poll_at_rest p i He Hf) as (H1 & H2 & H3). cbv zeta in *.
  revert H1 H2 H3. generalize (pollForInterval p i) as p1.
  induction rest as [ | j rest IH ]; intros p1 H1 H2 H3.
  - cbn. rewrite H1, H2. repeat split; assumption.
  - cbn [fold_left].
    destruct (poll_at_rest p1 j H1) as (K1 & K2 & K3); [ now rewrite H2 | ].
    cbv zeta in *. apply IH; [ exact K1 | now rewrite K2 | exact K3 ].
Qed.

(** X12.  A reference that sits on a finite target stays there: every
    poll, at any speed setting and interval, leaves the reference
    position equal to the target and the reference velocity zero. *)
Theorem reference_rests_on_target (p : state) (i : Z) (rest : list Z) :
  q_d p = q_d_d p -> is_finite (q_d_d p) = true ->
  let p' := polls p (i :: rest) in
  q_d p' = q_d_d p /\ q_d_d p' = q_d_d p /\ qd_d p' = zero.
Proof. intros He Hf. cbv zeta. now apply polls_at_rest. Qed.

Lemma reference_rests_on_target_witness :
  let p := calls Path [SetSpeed 500; SetTarget 0] in
  q_d p = q_d_d p /\ is_finite (q_d_d p) = true /\
  q_d (polls p [1000; 0; 250]) = q_d_d p.
Proof.
  cbv zeta. split; [ reflexivity | split; [ reflexivity | ] ].
  exact (proj1 (reference_rests_on_target
                  (calls Path [SetSpeed 500; SetTarget 0]) 1000 [0; 250]
                  eq_refl eq_refl)).
Defined.

(** X13.  With unlimited speed the reference steps: when the target is
    finite and differs from the reference, the first poll puts the
    reference on the target, and it stays there with zero reference
    velocity on every later poll. *)
Theorem unlimited_speed_steps (p : state) (i : Z) (rest : list Z) :
  isinf (speed p) = true -> is_finite (q_d_d p) = true ->
  eqb (sub (q_d_d p) (q_d p)) zero = false ->
  q_d (pollForInterval p i) = q_d_d p /\
  q_d (polls p (i :: rest)) = q_d_d p /\
  qd_d (polls p (i :: rest)) = zero.
Proof.
  intros Hs Hf He.
  destruct (poll_reference p i) as [ Jq Jv ]. cbv zeta in Jq, Jv.
  rewrite He, Hs in Jq, Jv.
  destruct (poll_frame p i) as (_ & Ft & _). cbv zeta in Ft.
  split; [ exact Jq | ].
  destruct rest as [ | j rest ].
  - unfold polls. cbn [fold_left]. now split.
  - unfold polls. cbn [fold_left].
    change (fold_left pollForInterval rest (pollForInterval (pollForInterval p i) j))
      with (polls (pollForInterval p i) (j :: rest)).
    destruct (polls_at_rest (pollForInterval p i) j rest)
      as (R1 & _ & R3); [ now rewrite Jq, Ft | now rewrite Ft | ].
    rewrite Ft in R1. now split.
Qed.

Lemma unlimited_speed_steps_witness :
  let p := calls Path [SetSpeed 0; SetTarget 1000] in
  isinf (speed p) = true /\ is_finite (q_d_d p) = true /\
  eqb (sub (q_d_d p) (q_d p)) zero = false /\
  q_d (polls p [1000; 1000; 1000]) = of_Z 1000.
Proof.
  cbv zeta. do 3 (split; [ reflexivity | ]).
  exact (proj1 (proj2 (unlimited_speed_steps
                         (calls Path [SetSpeed 0; SetTarget 1000]) 1000
                         [1000; 1000] eq_refl eq_refl eq_refl))).
Defined.

(** X14.  [setTarget(n)] stores a finite target for every [long] [n],
    and stores [n] itself when [|n| < 2^24]: casting the target back to
    [long] gives [n]; with unlimited speed the next poll puts the same
    value into the reference position. *)
Theorem setTarget_exact (p : state) (n i : Z) :
  CInt.is_long n ->
  is_finite (q_d_d (setTarget p n)) = true /\
  (- 2 ^ 24 < n < 2 ^ 24 ->
   to_long (q_d_d (setTarget p n)) = Some n /\
   (isinf (speed p) = true -> eqb (sub (of_Z n) (q_d p)) zero = false ->
    to_long (q_d (pollForInterval (setTarget p n) i)) = Some n)).
Proof.
  intros Hn. unfold CInt.is_long, CInt.LONG_MIN, CInt.LONG_MAX in Hn.
  split; [ apply of_Z_finite; cbn; lia | ].
  intros Hs. split; [ now apply to_long_of_Z_signed | ].
  intros Hinf Herr.
  destruct (poll_reference (setTarget p n) i) as [ Jq _ ]. cbv zeta in Jq.
  cbn [setTarget q_d_d q_d speed set_q_d_d] in Jq.
  rewrite Herr, Hinf in Jq.
  rewrite Jq. now apply to_long_of_Z_signed.
Qed.

Lemma setTarget_exact_witness :
  CInt.is_long (-1000) /\ (- 2 ^ 24 < -1000 < 2 ^ 24) /\
  to_long (q_d_d (setTarget Path (-1000))) = Some (-1000) /\
  to_long (q_d (pollForInterval (setTarget Path (-1000)) 1000)) = Some (-1000).
Proof.
  assert (H1 : CInt.is_long (-1000))
    by (unfold CInt.is_long, CInt.LONG_MIN, CInt.LONG_MAX; lia).
  assert (H2 : - 2 ^ 24 < -1000 < 2 ^ 24) by lia.
  split; [ exact H1 | split; [ exact H2 | ] ].
  destruct (proj2 (setTarget_exact Path (-1000) 1000 H1) H2) as [ Ht Hq ].
  split; [ exact Ht | exact (Hq eq_refl eq_refl) ].
Defined.

(** X15.  [setFreqDamping] never produces a negative gain from sensible
    arguments: for every frequency that is not NaN the stiffness [k] is
    [>= 0], and for every damping ratio [>= 0] the damping gain [b] is
    [>= 0] or NaN; the call changes nothing but [k] and [b]. *)
Theorem setFreqDamping_gains (p : state) (freq damping : float) :
  is_nan freq = false ->
  let p' := setFreqDamping p freq damping in
  leb zero (k p') = true /\
  (leb zero damping = true -> is_nan (b p') = true \/ leb zero (b p') = true) /\
  q p' = q p /\ qd p' = qd p /\ q_d p' = q_d p /\ qd_d p' = qd_d p /\
  q_d_d p' = q_d_d p /\ speed p' = speed p /\ t p' = t p /\
  qd_max p' = qd_max p /\ qdd_max p' = qdd_max p.
Proof.
  intros Hf. cbv zeta. unfold setFreqDamping.
  cbn [k b q qd q_d qd_d q_d_d speed t qd_max qdd_max set_k set_b].
  assert (Hk : leb zero (mul (mul (mul (mul freq freq) (of_Z 4)) M_PI) M_PI) = true).
  { unfold M_PI. apply mul_nonneg_positive, mul_nonneg_positive.
    change (of_Z 4) with (S754_finite false 8388608 (-21)).
    apply mul_nonneg_positive. now apply mul_self_nonneg. }
  split; [ exact Hk | ]. split; [ | repeat split ].
  intros Hd. apply mul_nonneg; [ | exact Hd ].
  change (of_Z 2) with (S754_finite false 8388608 (-22)).
  apply mul_positive_nonneg. now apply sqrtf_nonneg.
Qed.

Lemma setFreqDamping_gains_witness :
  is_nan (of_Z 3) = false /\
  leb zero (k (setFreqDamping Path (of_Z 3) (of_Z 1))) = true.
Proof.
  split; [ reflexivity | ].
  exact (proj1 (setFreqDamping_gains Path (of_Z 3) (of_Z 1) eq_refl)).
Defined.

Lemma poll_reference_nan (p : state) (interval : Z) :
  isinf (q_d_d p) = true -> q_d p = q_d_d p -> isinf (speed p) = false ->
  q_d (pollForInterval p interval) = S754_nan.
Proof.
  intros Hi He Hs.
  destruct (poll_reference p interval) as [ Rq _ ]. cbv zeta in Rq.
  rewrite Rq, He, Hs.
  destruct (q_d_d p) as [ | [] | | ]; try discriminate Hi; cbn;
    now rewrite min_nan_r.
Qed.

Lemma poll_nan_reference (p : state) (interval : Z) :
  q_d p = S754_nan -> qd (pollForInterval p interval) = S754_nan.
Proof.
  intros Hq. rewrite poll_qd. unfold integrated_qd, clamped_qdd, raw_qdd.
  rewrite Hq, sub_nan_l, mul_nan_r, add_nan_l, constrain_nan, mul_nan_l,
    add_nan_r, constrain_nan.
  reflexivity.
Qed.

Lemma poll_jump_to_infinite (p : state) (interval : Z) :
  isinf (q_d_d p) = true -> isinf (speed p) = true ->
  q_d (pollForInterval p interval) = q_d_d p.
Proof.
  intros Hi Hs.
  destruct (poll_reference p interval) as [ Rq _ ]. cbv zeta in Rq.
  rewrite Rq, Hs.
  destruct (q_d_d p) as [ | st | | ]; try discriminate Hi.
  destruct (q_d p) as [ | sr | | ]; destruct st; try destruct sr; reflexivity.
Qed.

(** X16.  Velocity mode, then unlimited speed, then a finite speed
    poisons the model: from any state, for every velocity [v], every
    speed [w > 0] and all intervals, the calls
    [setVelocity(v); setSpeed(0); poll; setSpeed(w); poll; poll] end
    with the reference position and the velocity both NaN. *)
Theorem velocity_then_unlimited_speed_gives_nan (p : state) (v w i1 i2 i3 : Z) :
  0 < w <= CInt.LONG_MAX ->
  let p' := calls p [SetVelocity v; SetSpeed 0; PollForInterval i1;
                     SetSpeed w; PollForInterval i2; PollForInterval i3] in
  q_d p' = S754_nan /\ qd p' = S754_nan /\ currentVelocity p' = None.
Proof.
  intros Hw. cbv zeta. unfold calls. cbn [fold_left call].
  set (p1 := setSpeed (setVelocity p v) 0).
  assert (H1 : isinf (q_d_d p1) = true /\ isinf (speed p1) = true).
  { subst p1. unfold setSpeed, setVelocity. now destruct (0 <=? v). }
  destruct H1 as [ H1i H1s ].
  pose proof (poll_jump_to_infinite p1 i1 H1i H1s) as Hj.
  destruct (poll_frame p1 i1) as (_ & Ft & _). cbv zeta in Ft.
  set (p2 := pollForInterval p1 i1) in *.
  set (p3 := setSpeed p2 w).
  assert (H3 : isinf (q_d_d p3) = true /\ q_d p3 = q_d_d p3 /\
               isinf (speed p3) = false).
  { subst p3. unfold setSpeed.
    cbn [q_d_d q_d speed set_speed]. rewrite Ft, Hj.
    split; [ exact H1i | split; [ reflexivity | ] ].
    destruct (Z.leb_spec w 0); [ lia | ].
    apply finite_not_inf, of_Z_finite.
    unfold CInt.LONG_MAX in Hw. lia. }
  destruct H3 as (H3i & H3e & H3s).
  pose proof (poll_reference_nan p3 i2 H3i H3e H3s) as Hn.
  pose proof (poll_nan_reference (pollForInterval p3 i2) i3 Hn) as Hv.
  split; [ | split; [ exact Hv | unfold currentVelocity; now rewrite Hv ] ].
  destruct (poll_reference (pollForInterval p3 i2) i3) as [ Rq _ ].
  destruct (poll_frame p3 i2) as (_ & Ft3 & Fs3 & _).
  cbv zeta in Rq, Ft3, Fs3.
  rewrite Rq, Hn, sub_nan_r, Fs3, H3s.
  change (eqb S754_nan zero) with false. change (gtb S754_nan zero) with false.
  cbv iota. cbn [opp SFopp]. now rewrite min_nan_r, sub_nan_l.
Qed.

Lemma velocity_then_unlimited_speed_gives_nan_witness :
  0 < 5 <= CInt.LONG_MAX /\
  qd (calls Path [SetVelocity (-20); SetSpeed 0; PollForInterval 1000;
                  SetSpeed 5; PollForInterval 10; PollForInterval 0])
    = S754_nan.
Proof.
  assert (H : 0 < 5 <= CInt.LONG_MAX) by (unfold CInt.LONG_MAX; lia).
  split; [ exact H | ].
  exact (proj1 (proj2 (velocity_then_unlimited_speed_gives_nan
                         Path (-20) 5 1000 10 0 H))).
Defined.

(** X17.  The velocity read-out is defined and within the limit: when
    [qd_max >= 0] casts to the integer [M] and the integrated velocity
    of a poll is a canonical binary32 number other than NaN, then
    [currentVelocity] after the poll returns an integer between [-M]
    and [M]. *)
Theorem currentVelocity_bounded (p : state) (interval M : Z) :
  leb zero (qd_max p) = true -> valid (qd_max p) = true ->
  to_long (qd_max p) = Some M ->
  valid (integrated_qd p interval) = true ->
  is_nan (integrated_qd p interval) = false ->
  exists v, currentVelocity (pollForInterval p interval) = Some v /\
            - M <= v <= M.
Proof.
  intros Hmax Vmax HM Vi Hn.
  unfold currentVelocity. rewrite poll_qd.
  apply cast_within_bound with (y := qd_max p).
  - apply constrain_valid; [ exact Vi | now rewrite opp_valid | exact Vmax ].
  - exact Vmax.
  - now apply constrain_within.
  - exact HM.
Qed.

Lemma currentVelocity_bounded_witness :
  let p := calls Path [SetTarget 100000; PollForInterval 1000;
                       PollForInterval 1000] in
  leb zero (qd_max p) = true /\ valid (qd_max p) = true /\
  to_long (qd_max p) = Some 2400 /\
  valid (integrated_qd p 1000000) = true /\
  is_nan (integrated_qd p 1000000) = false /\
  exists v, currentVelocity (pollForInterval p 1000000) = Some v /\
            - 2400 <= v <= 2400.
Proof.
  cbv zeta. do 5 (split; [ reflexivity | ]).
  apply (currentVelocity_bounded
           (calls Path [SetTarget 100000; PollForInterval 1000;
                        PollForInterval 1000]) 1000000 2400); reflexivity.
Defined.

(** X18.  In velocity mode [incrementTarget] has no effect: an infinite
    target absorbs every [long] offset, and the object is left exactly
    as it was. *)
Theorem incrementTarget_in_velocity_mode (p : state) (offset : Z) :
  isinf (q_d_d p) = true -> CInt.is_long offset ->
  incrementTarget p offset = p.
Proof.
  intros Hi Ho. unfold incrementTarget, set_q_d_d.
  assert (Hf : is_finite (of_Z offset) = true).
  { apply of_Z_finite.
    unfold CInt.is_long, CInt.LONG_MIN, CInt.LONG_MAX in Ho. lia. }
  destruct p as [ q0 qd0 qdd0 q_d0 qd_d0 t0 sp0 tm0 k0 b0 m0 a0 ].
  cbn in *. destruct t0 as [ | st | | ]; try discriminate Hi.
  now rewrite add_infinity_finite.
Qed.

Lemma incrementTarget_in_velocity_mode_witness :
  isinf (q_d_d (setVelocity Path (-40))) = true /\ CInt.is_long 123456 /\
  incrementTarget (setVelocity Path (-40)) 123456 = setVelocity Path (-40).
Proof.
  assert (H : CInt.is_long 123456)
    by (unfold CInt.is_long, CInt.LONG_MIN, CInt.LONG_MAX; lia).
  split; [ reflexivity | split; [ exact H | ] ].
  exact (incrementTarget_in_velocity_mode (setVelocity Path (-40)) 123456
           eq_refl H).
Defined.

Lemma poll_keeps_rest (p : state) (interval : Z) :
  sane_config p -> CInt.is_ulong interval -> at_rest p ->
  at_rest (pollForInterval p interval) /\
  sane_config (pollForInterval p interval) /\
  same_value (q (pollForInterval p interval)) (q p).
Proof.
  intros (Hk & Hb & Hvm & Ham) Hi (Hf & He & Hq & Hv & Hr).
  pose proof (dt_of_finite interval Hi) as Hdt.
  destruct (poll_at_rest p interval He Hf) as (R1 & R2 & R3).
  destruct (poll_frame p interval) as (_ & _ & _ & Fk & Fb & Fv & Fa).
  cbv zeta in *.
  assert (Hqn : is_nan (q p) = false).
  { destruct Hq as [ Hq | [ Hq _ ] ].
    - rewrite Hq, He. now apply finite_not_nan.
    - now destruct (q p). }
  assert (Sq : same_value (q (pollForInterval p interval)) (q p)).
  { rewrite poll_q. apply add_zero_r; [ | exact Hqn ].
    now apply mul_zero_l. }
  assert (Hraw : is_zero (raw_qdd p) = true).
  { unfold raw_qdd. apply add_zeros.
    - apply mul_zero_r; [ exact Hk | ].
      apply sub_same_value; [ now rewrite He | exact Hq ].
    - apply mul_zero_r; [ exact Hb | ]. now apply sub_zeros. }
  assert (Hacc : is_zero (clamped_qdd p) = true).
  { unfold clamped_qdd. now rewrite constrain_zero. }
  assert (Hqd : is_zero (qd (pollForInterval p interval)) = true).
  { rewrite poll_qd. unfold integrated_qd.
    assert (Hz : is_zero (add (qd p) (mul (clamped_qdd p) (dt_of interval))) = true)
      by (apply add_zeros; [ exact Hv | now apply mul_zero_l ]).
    now rewrite constrain_zero. }
  split; [ | split; [ | exact Sq ] ].
  - unfold at_rest. rewrite R1, R2, R3.
    split; [ exact Hf | split; [ reflexivity | split; [ | split ] ] ].
    + rewrite <- He. now apply (same_value_trans _ (q p)).
    + exact Hqd.
    + reflexivity.
  - unfold sane_config. now rewrite Fk, Fb, Fv, Fa.
Qed.

(** X19.  Rest is stable: with finite gains and non-negative limits, a
    model that sits on its finite target with zero velocity stays there
    over every sequence of polls; the velocity stays zero, the position
    stays the same number and [currentVelocity] reads 0.  The freshly
    constructed object is in that situation. *)
Theorem rest_is_stable (intervals : list Z) (p : state) :
  sane_config p -> at_rest p -> Forall CInt.is_ulong intervals ->
  at_rest (polls p intervals) /\
  same_value (q (polls p intervals)) (q p) /\
  currentVelocity (polls p intervals) = Some 0.
Proof.
  intros Hc Hr Hall. revert p Hc Hr.
  induction Hall as [ | i rest Hi Hrest IH ]; intros p Hc Hr.
  - cbn. split; [ exact Hr | split; [ now left | ] ].
    destruct Hr as (_ & _ & _ & Hv & _). unfold currentVelocity.
    now destruct (qd p).
  - unfold polls in *. cbn [fold_left].
    destruct (poll_keeps_rest p i Hc Hi Hr) as (R1 & C1 & S1).
    destruct (IH _ C1 R1) as (I1 & I2 & I3).
    split; [ exact I1 | split; [ | exact I3 ] ].
    now apply (same_value_trans _ (q (pollForInterval p i))).
Qed.

Lemma rest_is_stable_witness :
  sane_config Path /\ at_rest Path /\
  Forall CInt.is_ulong [1000; 0; 4000000000] /\
  currentVelocity (polls Path [1000; 0; 4000000000]) = Some 0.
Proof.
  assert (Hc : sane_config Path) by (repeat split).
  assert (Hr : at_rest Path).
  { unfold at_rest. split; [ reflexivity | split; [ reflexivity | ] ].
    split; [ now left | split; reflexivity ]. }
  assert (Hall : Forall CInt.is_ulong [1000; 0; 4000000000]).
  { repeat constructor; unfold CInt.ULONG_MOD; lia. }
  split; [ exact Hc | split; [ exact Hr | split; [ exact Hall | ] ] ].
  exact (proj2 (proj2 (rest_is_stable _ Path Hc Hr Hall))).
Defined.

End PathFacts.
